(** * Work source group of the Modular Python Bitcoin Miner

    A shallow embedding of [core/worksourcegroup.py] (class
    [WorkSourceGroup]) and the properties of its membership manager,
    lifecycle cascade, quota distributor and fetch dispatcher.

    Conventions of the embedding.
    - Python objects live in a heap addressed by object identity ([oid]);
      every reference held by the program denotes a live object, so the heap
      is a total function.  Lists of children hold references, hence two
      entries of a list may alias the same object.
    - Python floats are idealised as exact rationals ([Qc], canonical
      fractions with Leibniz equality): [2**32 / 1000000.] is the fraction
      [4294967296/1000000], [0.1] is [1/10] and [0.9] is [9/10].
    - [time.time()] reads an external clock: the [n]-th read of a run
      returns [time_time n].
    - Calls into collaborators whose code is outside this file (a child's
      [start], [stop], [start_fetchers], the base class hooks) are oracles
      transforming the whole world; they may return or raise.
    - Loops whose termination depends on the data take fuel and return
      [None] when it runs out; every property of the form "returns" is
      proved by exhibiting enough fuel.
    - Locks are not modelled: the embedding describes one thread. *)

From Stdlib Require Import ZArith QArith Qcanon Lia.
From Stdlib Require Qcabs.
From stdpp Require Import base list strings gmap.

Local Open Scope Qc_scope.

(** ** Numbers *)

Definition Qcltb (x y : Qc) : bool :=
  match x ?= y with Lt => true | _ => false end.

Definition Qcleb (x y : Qc) : bool :=
  match x ?= y with Gt => false | _ => true end.

Definition Qceqb (x y : Qc) : bool :=
  match x ?= y with Eq => true | _ => false end.

(** [2**32 / 1000000.] : the quota of one job, in megahashes. *)
Definition unit_rate : Qc := Q2Qc (4294967296 # 1000000).

(** The default [distribution_granularity], [16]. *)
Definition default_granularity : Qc := Q2Qc 16.

Definition tenth : Qc := Q2Qc (1 # 10).
Definition nine_tenths : Qc := Q2Qc (9 # 10).

(** ** Python values *)

(** What [start_fetchers] hands back as its first component: [False], or a
    number of fetchers. *)
Inductive pyresult : Type :=
| RFalse
| RInt (n : Z).

(** [if result:] *)
Definition truthy (r : pyresult) : bool :=
  match r with
  | RFalse => false
  | RInt n => negb (n =? 0)%Z
  end.

(** [result is not False] *)
Definition is_not_False (r : pyresult) : bool :=
  match r with
  | RFalse => false
  | RInt _ => true
  end.



(** Exceptions.  [CycleError] is the [Exception("Trying to move work source
    %s into itself or one of its descendants!")] of [add_work_source];
    [IndexError] and [ValueError] are raised by list indexing and
    [list.remove]; [ChildError] is whatever a collaborator raises. *)
Inductive exn : Type :=
| CycleError
| IndexError
| ValueError
| ChildError.

Inductive outcome (A : Type) : Type :=
| Returned (a : A)
| Raised (e : exn).
Arguments Returned {A} a.
Arguments Raised {A} e.

(** ** Objects and the world *)

Definition oid : Type := nat.

(** The attributes of a work source read or written by the group.  Leaves
    carry the group-only attributes too (unused). *)
Record worksource : Type := mkWorkSource {
  is_group : bool;
  parent : option oid;
  started : bool;
  enabled : bool;
  priority : Qc;
  hashrate : Qc;
  distribution_granularity : Qc;
  mhashes_pending : Qc;
  mhashes_deferred : Qc;
  children : list oid;
  last_index : nat;
  last_time : Qc
}.

Definition set_parent_field (p : option oid) (o : worksource) : worksource :=
  mkWorkSource (is_group o) p (started o) (enabled o) (priority o)
    (hashrate o) (distribution_granularity o) (mhashes_pending o)
    (mhashes_deferred o) (children o) (last_index o) (last_time o).

Definition set_mhashes_pending (q : Qc) (o : worksource) : worksource :=
  mkWorkSource (is_group o) (parent o) (started o) (enabled o) (priority o)
    (hashrate o) (distribution_granularity o) q
    (mhashes_deferred o) (children o) (last_index o) (last_time o).

Definition set_mhashes_deferred (q : Qc) (o : worksource) : worksource :=
  mkWorkSource (is_group o) (parent o) (started o) (enabled o) (priority o)
    (hashrate o) (distribution_granularity o) (mhashes_pending o)
    q (children o) (last_index o) (last_time o).

Definition set_children (l : list oid) (o : worksource) : worksource :=
  mkWorkSource (is_group o) (parent o) (started o) (enabled o) (priority o)
    (hashrate o) (distribution_granularity o) (mhashes_pending o)
    (mhashes_deferred o) l (last_index o) (last_time o).

Definition set_last_index (i : nat) (o : worksource) : worksource :=
  mkWorkSource (is_group o) (parent o) (started o) (enabled o) (priority o)
    (hashrate o) (distribution_granularity o) (mhashes_pending o)
    (mhashes_deferred o) (children o) i (last_time o).

Definition set_last_time (t : Qc) (o : worksource) : worksource :=
  mkWorkSource (is_group o) (parent o) (started o) (enabled o) (priority o)
    (hashrate o) (distribution_granularity o) (mhashes_pending o)
    (mhashes_deferred o) (children o) (last_index o) t.

Record world : Type := mkWorld {
  heap : oid -> worksource;
  clock_reads : nat
}.

(** In-place mutation of the object [k]. *)
Definition modify (w : world) (k : oid) (f : worksource -> worksource) : world :=
  mkWorld (fun j => if Nat.eqb j k then f (heap w k) else heap w j)
          (clock_reads w).

(** ** Settings ([apply_settings]) *)

Module Settings.




End Settings.

(** ** Quota distributor ([_distribute_mhashes]) *)

Section Distributor.

(** The external clock. *)
Variable time_time : nat -> Qc.

Definition read_clock (w : world) : Qc * world :=
  (time_time (clock_reads w), mkWorld (heap w) (S (clock_reads w))).

(** The pool a tick starts from:
    [mhashes_remaining = 2**32 / 1000000. * self.settings.distribution_granularity]. *)
Definition minted_pool (w : world) (self : oid) : Qc :=
  unit_rate * distribution_granularity (heap w self).

(** Body of the first [for child in self.children] loop.  The accumulator is
    the world with the locals [mhashes_remaining] and [total_priority]. *)
Definition first_pass_step (timestep : Qc) (acc : world * Qc * Qc) (child : oid)
  : world * Qc * Qc :=
  let '(w, mhashes_remaining, total_priority) := acc in
  if enabled (heap w child) then
    let total_priority := total_priority + priority (heap w child) in
    let mhashes := timestep * hashrate (heap w child) in
    let w := modify w child (fun o =>
      set_mhashes_pending
        (mhashes_pending o + (mhashes + mhashes_deferred o * tenth)) o) in
    let mhashes_remaining := mhashes_remaining - mhashes in
    let w := modify w child (fun o =>
      set_mhashes_deferred (mhashes_deferred o * nine_tenths) o) in
    (w, mhashes_remaining, total_priority)
  else acc.

Definition first_pass (timestep : Qc) (l : list oid) (acc : world * Qc * Qc)
  : world * Qc * Qc :=
  fold_left (first_pass_step timestep) l acc.

(** Body of the second loop, run with [unit = mhashes_remaining / total_priority]. *)
Definition second_pass_step (unit : Qc) (acc : world * Qc) (child : oid)
  : world * Qc :=
  let '(w, mhashes_remaining) := acc in
  if enabled (heap w child) then
    let mhashes := unit * priority (heap w child) in
    let w := modify w child (fun o =>
      set_mhashes_pending (mhashes_pending o + mhashes) o) in
    (w, mhashes_remaining - mhashes)
  else acc.

Definition second_pass (unit : Qc) (l : list oid) (acc : world * Qc) : world * Qc :=
  fold_left (second_pass_step unit) l acc.

(** The locals of one tick, kept for the statements about the pool. *)
Record tick : Type := mkTick {
  tick_world : world;          (* the world when the tick is over *)
  tick_timestep : Qc;          (* [timestep] *)
  tick_pool : Qc;              (* [mhashes_remaining] before the first loop *)
  tick_after_first : world;    (* the world between the two loops *)
  tick_remainder : Qc;         (* [mhashes_remaining] between the two loops *)
  tick_total_priority : Qc;    (* [total_priority] *)
  tick_left : Qc               (* [mhashes_remaining] at the end *)
}.

Definition distribute_tick (w : world) (self : oid) : tick :=
  let '(now, w) := read_clock w in
  let timestep := now - last_time (heap w self) in
  let w := modify w self (set_last_time now) in
  let pool := minted_pool w self in
  let total_priority := 0 in
  let '(w1, mhashes_remaining, total_priority) :=
    first_pass timestep (children (heap w self)) (w, pool, total_priority) in
  if Qcltb 0 mhashes_remaining && Qcltb 0 total_priority then
    let unit := mhashes_remaining / total_priority in
    let '(w2, leftover) :=
      second_pass unit (children (heap w1 self)) (w1, mhashes_remaining) in
    mkTick w2 timestep pool w1 mhashes_remaining total_priority leftover
  else
    mkTick w1 timestep pool w1 mhashes_remaining total_priority mhashes_remaining.

Definition _distribute_mhashes (w : world) (self : oid) : world :=
  tick_world (distribute_tick w self).

End Distributor.

(** ** Fetch dispatcher ([_start_fetcher], [start_fetchers]) *)

(** Modelled from the spec: [BaseWorkSource.add_pending_mhashes] is defined
    outside this file.  The spec has the dispatcher "optimistically debit"
    the pending quota of the chosen child and "refund" the debit, both
    through this call, so it adds its signed argument to the pending quota
    of the object it is called on. *)
Definition add_pending_mhashes (w : world) (worksource : oid) (mhashes : Qc) : world :=
  modify w worksource (fun o => set_mhashes_pending (mhashes_pending o + mhashes) o).

(** How one walk around the ring, or one visit of a child, ends. *)
Inductive walk_result : Type :=
| Walked (w : world) (found : bool) (best : pyresult)
| WalkReturn (w : world) (result : pyresult) (gotjobs : Qc)
| WalkRaise (w : world) (e : exn).

Section Dispatcher.

Variable time_time : nat -> Qc.

(** [worksource.start_fetchers(count, jobs)] of a child (a leaf, or a nested
    group). *)
Variable child_start_fetchers :
  oid -> Z -> Qc -> world -> world * outcome (pyresult * Qc).

Definition _get_start_index (w : world) (self : oid) : world * nat :=
  let w := modify w self (fun o => set_last_index (last_index o + 1)%nat o) in
  let w :=
    if (length (children (heap w self)) <=? last_index (heap w self))%nat
    then modify w self (set_last_index 0%nat) else w in
  (w, last_index (heap w self)).

(** The body of the inner loop up to [index += 1]. *)
Definition visit_child (jobs : Qc) (force : bool) (w : world) (worksource : oid)
    (found : bool) (best : pyresult) : walk_result :=
  let mhashes := if negb (is_group (heap w worksource)) then unit_rate else 0 in
  if force || Qcleb mhashes (mhashes_pending (heap w worksource)) then
    let found := true in
    let w := if negb (Qceqb mhashes 0)
             then add_pending_mhashes w worksource (- mhashes) else w in
    match child_start_fetchers worksource 1%Z jobs w with
    | (w, Raised e) => WalkRaise w e
    | (w, Returned (result, gotjobs)) =>
        if is_not_False result then
          let w := if negb (Qceqb mhashes 0)
                   then add_pending_mhashes w worksource mhashes else w in
          if truthy result then WalkReturn w result gotjobs
          else Walked w found result
        else Walked w found best
    end
  else Walked w found best.

(** [while index != startindex or first: ...] over the snapshot. *)
Fixpoint ring_walk (fuel : nat) (snapshot : list oid) (startindex : nat)
    (jobs : Qc) (force : bool) (w : world) (index : nat) (first : bool)
    (found : bool) (best : pyresult) : option walk_result :=
  match fuel with
  | O => None
  | S fuel' =>
      if negb (index =? startindex)%nat || first then
        match snapshot !! index with
        | None => Some (WalkRaise w IndexError)
        | Some worksource =>
            match visit_child jobs force w worksource found best with
            | Walked w found best =>
                let index := (index + 1)%nat in
                let index := if (length snapshot <=? index)%nat then 0%nat else index in
                ring_walk fuel' snapshot startindex jobs force w index false
                          found best
            | r => Some r
            end
        end
      else Some (Walked w found best)
  end.

(** [while not found: ...].  The last component lists, for every walk around
    the ring that was made, the value [force] had during it. *)
Fixpoint dispatch_loop (fuel : nat) (self : oid) (snapshot : list oid)
    (startindex : nat) (jobs : Qc) (force : bool) (w : world) (found : bool)
    (best : pyresult) (iteration : nat) (rings : list bool)
  : option (world * outcome (pyresult * Qc) * list bool) :=
  match fuel with
  | O => None
  | S fuel' =>
      if negb found then
        match ring_walk fuel snapshot startindex jobs force w startindex true
                        found best with
        | None => None
        | Some (WalkRaise w e) => Some (w, Raised e, rings ++ [force])
        | Some (WalkReturn w result gotjobs) =>
            Some (w, Returned (result, gotjobs), rings ++ [force])
        | Some (Walked w found best) =>
            let w := if negb found then _distribute_mhashes time_time w self
                     else w in
            let iteration := (iteration + 1)%nat in
            if (150 <? iteration)%nat then
              Some (w, Returned (best, 0), rings ++ [force])
            else
              let force' := if (100 <? iteration)%nat then true else force in
              dispatch_loop fuel' self snapshot startindex jobs force' w found
                            best iteration (rings ++ [force])
        end
      else Some (w, Returned (best, 0), rings)
  end.

Definition _start_fetcher (fuel : nat) (self : oid) (jobs : Qc) (force : bool)
    (w : world) : option (world * outcome (pyresult * Qc) * list bool) :=
  let snapshot := children (heap w self) in
  let '(w, startindex) := _get_start_index w self in
  dispatch_loop fuel self snapshot startindex jobs force w false RFalse 0%nat [].

(** [while started < count and totaljobs < jobs: ...] *)
Fixpoint start_fetchers_loop (fuel : nat) (self : oid) (count : Z) (jobs : Qc)
    (w : world) (started : Z) (result : pyresult) (totaljobs : Qc)
  : option (world * outcome (pyresult * Qc)) :=
  match fuel with
  | O => None
  | S fuel' =>
      if (started <? count)%Z && Qcltb totaljobs jobs then
        match _start_fetcher fuel self jobs false w with
        | None => None
        | Some (w, Raised e, _) => Some (w, Raised e)
        | Some (w, Returned (result, newjobs), _) =>
            let retry :=
              if negb (truthy result) then _start_fetcher fuel self jobs true w
              else Some (w, Returned (result, newjobs), []) in
            match retry with
            | None => None
            | Some (w, Raised e, _) => Some (w, Raised e)
            | Some (w, Returned (result, newjobs), _) =>
                if negb (truthy result) then
                  Some (w, Returned (if negb (started =? 0)%Z
                                     then (RInt started, totaljobs)
                                     else (result, 0)))
                else
                  match result with
                  | RInt n =>
                      start_fetchers_loop fuel' self count jobs w
                        (started + n)%Z result (totaljobs + newjobs)
                  | RFalse => None (* unreachable: [RFalse] is falsy *)
                  end
            end
        end
      else
        Some (w, Returned (if negb (started =? 0)%Z
                           then (RInt started, totaljobs)
                           else (result, 0)))
  end.

Definition start_fetchers (fuel : nat) (self : oid) (count : Z) (jobs : Qc)
    (w : world) : option (world * outcome (pyresult * Qc)) :=
  if negb (started (heap w self)) || negb (enabled (heap w self))
     || match children (heap w self) with [] => true | _ => false end
     || (count =? 0)%Z
  then Some (w, Returned (RFalse, 0))
  else start_fetchers_loop fuel self count jobs w 0%Z RFalse 0.

End Dispatcher.

(** ** Tree membership ([add_work_source], [remove_work_source]) *)

(** Modelled from the spec: [get_parent] and [set_parent] belong to
    [BaseWorkSource], outside this file; by the spec they read and write the
    back-reference to the owning group ("[get_parent() -> WorkSource|None],
    [set_parent(WorkSource|None)]"). *)
Definition get_parent (w : world) (x : oid) : option oid := parent (heap w x).

Definition set_parent (w : world) (x : oid) (p : option oid) : world :=
  modify w x (set_parent_field p).

(** [x in l] *)
Fixpoint mem (x : oid) (l : list oid) : bool :=
  match l with
  | [] => false
  | y :: l' => Nat.eqb y x || mem x l'
  end.

(** [l.remove(x)]: drops the first occurrence, [None] for [ValueError]. *)
Fixpoint list_remove (x : oid) (l : list oid) : option (list oid) :=
  match l with
  | [] => None
  | y :: l' =>
      if Nat.eqb y x then Some l'
      else match list_remove x l' with
           | None => None
           | Some r => Some (y :: r)
           end
  end.

(** The walk up the parent links,
    [w = self; while w: if w == worksource: raise ...; w = w.get_parent()].
    [Some true] when the walk meets [worksource] (the exception is raised),
    [Some false] when it runs off the root. *)
Fixpoint meets_worksource (fuel : nat) (w : world) (cur : option oid)
    (worksource : oid) : option bool :=
  match fuel with
  | O => None
  | S fuel' =>
      match cur with
      | None => Some false
      | Some x =>
          if Nat.eqb x worksource then Some true
          else meets_worksource fuel' w (get_parent w x) worksource
      end
  end.

(** The [n]-th ancestor of a node along the parent links ([0]: the node). *)
Fixpoint nth_ancestor (w : world) (x : oid) (n : nat) : option oid :=
  match n with
  | O => Some x
  | S n' =>
      match get_parent w x with
      | None => None
      | Some p => nth_ancestor w p n'
      end
  end.

Section Membership.

(** [worksource.start()] and [worksource.stop()] of a child. *)
Variable child_start : oid -> world -> world * outcome unit.
Variable child_stop : oid -> world -> world * outcome unit.

Fixpoint remove_work_source (fuel : nat) (w : world) (self worksource : oid)
  : option (world * outcome unit) :=
  match fuel with
  | O => None
  | S fuel' =>
      if mem worksource (children (heap w self)) then
        let w := set_parent w worksource None in
        let w := if started (heap w self)
                 then fst (child_stop worksource w) (* [except Exception] *)
                 else w in
        match list_remove worksource (children (heap w self)) with
        | None => Some (w, Raised ValueError)
        | Some l =>
            remove_work_source fuel' (modify w self (set_children l)) self
                               worksource
        end
      else Some (w, Returned tt)
  end.

Definition add_work_source (fuel : nat) (w : world) (self worksource : oid)
  : option (world * outcome unit) :=
  match meets_worksource fuel w (Some self) worksource with
  | None => None
  | Some true => Some (w, Raised CycleError)
  | Some false =>
      let old_parent := get_parent w worksource in
      let removed :=
        match old_parent with
        | Some p => remove_work_source fuel w p worksource
        | None => Some (w, Returned tt)
        end in
      match removed with
      | None => None
      | Some (w, Raised e) => Some (w, Raised e)
      | Some (w, Returned _) =>
          let w := set_parent w worksource (Some self) in
          if negb (mem worksource (children (heap w self))) then
            let w := if started (heap w self)
                     then fst (child_start worksource w) (* [except Exception] *)
                     else w in
            Some (modify w self (fun o =>
                    set_children (children o ++ [worksource]) o),
                  Returned tt)
          else Some (w, Returned tt)
      end
  end.

End Membership.

(** ** Lifecycle cascade ([_start], [_stop]) *)

(** What a cascade did, in order: the hook of the base class, and the calls
    of [start] or [stop] on children with whether they raised. *)
Inductive event : Type :=
| OwnHook
| ChildCall (child : oid) (raised : bool).

Definition has_raised {A : Type} (r : outcome A) : bool :=
  match r with
  | Returned _ => false
  | Raised _ => true
  end.

Section Lifecycle.

(** [super()._start()] and [super()._stop()]. *)
Variable base_start : oid -> world -> world * outcome unit.
Variable base_stop : oid -> world -> world * outcome unit.
Variable child_start : oid -> world -> world * outcome unit.
Variable child_stop : oid -> world -> world * outcome unit.

(** [for worksource in self.children: try: worksource.<call>() except
    Exception: log]: the loop reads the list of the group afresh at each
    index [i], as Python's list iterator does. *)
Fixpoint cascade (call : oid -> world -> world * outcome unit) (fuel : nat)
    (self : oid) (i : nat) (w : world) (log : list event)
  : option (world * list event) :=
  match fuel with
  | O => None
  | S fuel' =>
      match children (heap w self) !! i with
      | None => Some (w, log)
      | Some worksource =>
          let '(w, r) := call worksource w in
          cascade call fuel' self (S i) w
                  (log ++ [ChildCall worksource (has_raised r)])
      end
  end.

Definition _start (fuel : nat) (w : world) (self : oid)
  : option (world * outcome unit * list event) :=
  match base_start self w with
  | (w, Raised e) => Some (w, Raised e, [OwnHook])
  | (w, Returned _) =>
      match cascade child_start fuel self 0%nat w [OwnHook] with
      | None => None
      | Some (w, log) => Some (w, Returned tt, log)
      end
  end.

Definition _stop (fuel : nat) (w : world) (self : oid)
  : option (world * outcome unit * list event) :=
  match cascade child_stop fuel self 0%nat w [] with
  | None => None
  | Some (w, log) =>
      let '(w, r) := base_stop self w in
      Some (w, r, log ++ [OwnHook])
  end.

End Lifecycle.

(** ** Vocabulary of the statements *)

(** Sum of [f] over the enabled entries of a list of children; an object
    listed twice counts twice, as it does in the loops. *)
Fixpoint sum_enabled (w : world) (f : worksource -> Qc) (l : list oid) : Qc :=
  match l with
  | [] => 0
  | c :: l' =>
      (if enabled (heap w c) then f (heap w c) else 0) + sum_enabled w f l'
  end.

(** Two worlds agree on everything the distributor only reads. *)
Definition same_settings (w w' : world) : Prop :=
  forall x,
    enabled (heap w' x) = enabled (heap w x) /\
    priority (heap w' x) = priority (heap w x) /\
    hashrate (heap w' x) = hashrate (heap w x) /\
    children (heap w' x) = children (heap w x) /\
    distribution_granularity (heap w' x) = distribution_granularity (heap w x).

(** A collaborator that leaves the list of children of [self] alone. *)
Definition keeps_children (self : oid)
    (call : oid -> world -> world * outcome unit) : Prop :=
  forall c w, children (heap (call c w).1 self) = children (heap w self).

(** A child's [start_fetchers] that leaves the pending quota of the child
    it is called on alone. *)
Definition keeps_pending
    (fetch : oid -> Z -> Qc -> world -> world * outcome (pyresult * Qc)) : Prop :=
  forall c n j w,
    mhashes_pending (heap (fetch c n j w).1 c) = mhashes_pending (heap w c).

(** [n] ticks in a row on the same group. *)
Fixpoint ticks (time_time : nat -> Qc) (n : nat) (w : world) (self : oid) : world :=
  match n with
  | O => w
  | S n' => ticks time_time n' (_distribute_mhashes time_time w self) self
  end.

(** An exception that reaches the caller of the dispatcher was raised by a
    child's [start_fetchers]. *)
Definition raised_by
    (fetch : oid -> Z -> Qc -> world -> world * outcome (pyresult * Qc))
    (e : exn) : Prop :=
  exists c n j w, (fetch c n j w).2 = Raised e.

(** What a visit or a walk guarantees, knowing whether an eligible child had
    been found before or is bound to be found ([sure]). *)
Definition walk_ok
    (fetch : oid -> Z -> Qc -> world -> world * outcome (pyresult * Qc))
    (sure : bool) (r : walk_result) : Prop :=
  match r with
  | Walked _ found _ => sure = true -> found = true
  | WalkReturn _ _ _ => True
  | WalkRaise _ e => raised_by fetch e
  end.

(** The dispatcher returned, or passed on an exception of a child. *)
Definition returned_or_child_raised {A : Type}
    (fetch : oid -> Z -> Qc -> world -> world * outcome (pyresult * Qc))
    (out : outcome A) : Prop :=
  match out with
  | Returned _ => True
  | Raised e => raised_by fetch e
  end.

(** C4 as the spec words it: every walk around the ring made after 100
    walks (the 101st and later) runs with [force] set. *)
Definition forced_after_100 (rings : list bool) : Prop :=
  forall i, (100 <= i)%nat -> (i < length rings)%nat -> rings !! i = Some true.

(** A child whose [start_fetchers] reports no progress and touches nothing. *)
Definition fetch_nothing
  : oid -> Z -> Qc -> world -> world * outcome (pyresult * Qc) :=
  fun _ _ _ w => (w, Returned (RFalse, 0)).

(** The child a logged call was made on. *)
Definition call_target (e : event) : option oid :=
  match e with
  | OwnHook => None
  | ChildCall c _ => Some c
  end.

(** A hook, or a child's [start] or [stop], that does nothing. *)
Definition call_ok : oid -> world -> world * outcome unit :=
  fun _ w => (w, Returned tt).

(** A child's [start] or [stop] that raises on the child [bad] only. *)
Definition call_raising_on (bad : oid) : oid -> world -> world * outcome unit :=
  fun c w => (w, if Nat.eqb c bad then Raised ChildError else Returned tt).

(** ** Example worlds *)

(** A started leaf owned by the group [0]. *)
Definition leaf (en : bool) (prio hr pending deferred : Qc) : worksource :=
  mkWorkSource false (Some 0%nat) true en prio hr 0 pending deferred [] 0%nat 0.

(** A started, enabled root group with the default granularity. *)
Definition group (l : list oid) : worksource :=
  mkWorkSource true None true true 1 0 default_granularity 0 0 l 0%nat 0.

Definition three : Qc := Q2Qc 3.
Definition ten : Qc := Q2Qc 10.

(** Group [0] owns the leaves [1] (priority 1, deferred quota 10) and [2]
    (priority 3), both enabled with a hash rate of 1. *)
Definition two_leaves : world :=
  mkWorld (fun x => match x with
                    | 0%nat => group [1%nat; 2%nat]
                    | 1%nat => leaf true 1 1 0 ten
                    | _ => leaf true three 1 0 0
                    end) 0.

(** Group [0] owns the single leaf [1]: enabled or not, with a deferred
    quota of 10 and the given pending quota. *)
Definition one_leaf (en : bool) (pending : Qc) : world :=
  mkWorld (fun x => match x with
                    | 0%nat => group [1%nat]
                    | _ => leaf en 1 1 pending ten
                    end) 0.

(** A chain of stopped groups: [0] is the root and every [S x] is the only
    child of [x]. *)
Definition chain : world :=
  mkWorld (fun x => mkWorkSource true
                      (match x with O => None | S p => Some p end)
                      false true 1 0 default_granularity 0 0 [S x] 0%nat 0)
          0.

(** The stopped root group [0] owns the leaf [1]; the leaf [2] has no
    parent. *)
Definition with_orphan : world :=
  mkWorld (fun x => match x with
                    | 0%nat => mkWorkSource true None false true 1 0
                                 default_granularity 0 0 [1%nat] 0%nat 0
                    | 1%nat => leaf true 1 1 0 0
                    | _ => mkWorkSource false None false true 1 1 0 0 0 []
                                        0%nat 0
                    end) 0.

(** A root group without children. *)
Definition childless : world := mkWorld (fun _ => group []) 0.

(** The started root group [0] owns the leaf [1]; every other object is a
    leaf without parent. *)
Definition adopting : world :=
  mkWorld (fun x => match x with
                    | 0%nat => group [1%nat]
                    | 1%nat => leaf true 1 1 0 0
                    | _ => mkWorkSource false None false true 1 1 0 0 0 []
                                        0%nat 0
                    end) 0.


(** A clock that always shows [t]. *)
Definition clock_at (t : Qc) : nat -> Qc := fun _ => t.

(** A collaborator that alters neither a list of children nor a parent
    link. *)
Definition keeps_links (call : oid -> world -> world * outcome unit) : Prop :=
  forall c w x,
    children (heap (call c w).1 x) = children (heap w x) /\
    parent (heap (call c w).1 x) = parent (heap w x).


(** [worksource] is neither [x] nor one of its ancestors. *)
Definition not_above (w : world) (worksource x : oid) : Prop :=
  forall n, nth_ancestor w x n <> Some worksource.

(** The children left when every occurrence of [worksource] is dropped. *)
Definition without (worksource : oid) (l : list oid) : list oid :=
  filter (fun x => x <> worksource) l.



(** Sum of [f] over a list of objects. *)
Fixpoint total (f : oid -> Qc) (l : list oid) : Qc :=
  match l with
  | [] => 0
  | c :: l' => f c + total f l'
  end.

(** Two states of an object that differ at most in the pending and the
    deferred quota. *)
Definition differ_in_quota_only (o o' : worksource) : Prop :=
  o' = set_mhashes_pending (mhashes_pending o')
         (set_mhashes_deferred (mhashes_deferred o') o).

(** The [unit] of the second loop of a tick, or [0] when the second loop did
    not run. *)
Definition tick_unit (t : tick) : Qc :=
  if Qcltb 0 (tick_remainder t) && Qcltb 0 (tick_total_priority t)
  then tick_remainder t / tick_total_priority t
  else 0.

(** [_reset]: the base class resets first (its code is outside this file),
    then the rotation cursor and the tick time are set. *)
Definition _reset (time_time : nat -> Qc)
    (base_reset : oid -> world -> world * outcome unit)
    (w : world) (self : oid) : world * outcome unit :=
  match base_reset self w with
  | (w, Raised e) => (w, Raised e)
  | (w, Returned _) =>
      let w := modify w self (set_last_index 0%nat) in
      let '(now, w) := read_clock time_time w in
      (modify w self (set_last_time now), Returned tt)
  end.

(** The start indices handed out by [k] calls of [_get_start_index] in a
    row. *)
Fixpoint start_indices (k : nat) (w : world) (self : oid) : list nat :=
  match k with
  | O => []
  | S k' =>
      let '(w, index) := _get_start_index w self in
      index :: start_indices k' w self
  end.

(** What the dispatcher leaves alone in an object: everything but the quota
    counters, the rotation cursor and the tick time. *)
Definition structure (o : worksource)
  : bool * option oid * bool * bool * Qc * Qc * Qc * list oid :=
  (is_group o, parent o, started o, enabled o, priority o, hashrate o,
   distribution_granularity o, children o).

Definition same_structure (w w' : world) : Prop :=
  forall x, structure (heap w' x) = structure (heap w x).

Definition world_of (r : walk_result) : world :=
  match r with
  | Walked w _ _ => w
  | WalkReturn w _ _ => w
  | WalkRaise w _ => w
  end.

(** A child's [start_fetchers] that leaves the structure of every object
    alone. *)
Definition keeps_structure
    (fetch : oid -> Z -> Qc -> world -> world * outcome (pyresult * Qc)) : Prop :=
  forall c n j w x,
    structure (heap (fetch c n j w).1 x) = structure (heap w x).

(** A child's [start_fetchers] that never reports a negative number of
    fetchers. *)
Definition nonnegative_results
    (fetch : oid -> Z -> Qc -> world -> world * outcome (pyresult * Qc)) : Prop :=
  forall c n j w r g, (fetch c n j w).2 = Returned (RInt r, g) -> (0 <= r)%Z.

(** What [_start_fetcher] hands back: a truthy result of a child together
    with the jobs the child reported, or a falsy result without jobs; the
    exceptions it lets out are those of a child or, on a group without
    children, the [IndexError]. *)
Definition dispatched
    (fetch : oid -> Z -> Qc -> world -> world * outcome (pyresult * Qc))
    (out : outcome (pyresult * Qc)) : Prop :=
  match out with
  | Returned (r, g) =>
      (truthy r = true /\
       exists c n j w, (fetch c n j w).2 = Returned (r, g)) \/
      (truthy r = false /\ g = 0)
  | Raised e => raised_by fetch e \/ e = IndexError
  end.

(** What a visit or a walk hands back, as far as the caller relies on it,
    [kept] being a property of worlds that the steps of the dispatcher
    keep. *)
Definition walk_post
    (fetch : oid -> Z -> Qc -> world -> world * outcome (pyresult * Qc))
    (kept : world -> Prop) (r : walk_result) : Prop :=
  kept (world_of r) /\
  match r with
  | Walked _ _ best => truthy best = false
  | WalkReturn _ result gotjobs =>
      truthy result = true /\
      exists c n j w, (fetch c n j w).2 = Returned (result, gotjobs)
  | WalkRaise _ e => raised_by fetch e \/ e = IndexError
  end.

(** What [start_fetchers] of a group hands back: a positive number of
    started fetchers, or a falsy result without jobs; the exceptions it lets
    out are those of a child. *)
Definition reported
    (fetch : oid -> Z -> Qc -> world -> world * outcome (pyresult * Qc))
    (out : outcome (pyresult * Qc)) : Prop :=
  match out with
  | Returned (r, g) =>
      (exists n, r = RInt n /\ (0 < n)%Z) \/ (truthy r = false /\ g = 0)
  | Raised e => raised_by fetch e
  end.


(** One walk around the ring, as a recursion over the children in the order
    the walk visits them: the walk stops at the first child whose
    [start_fetchers] hands back a non-zero result or raises. *)
Fixpoint walk_list
    (fetch : oid -> Z -> Qc -> world -> world * outcome (pyresult * Qc))
    (jobs : Qc) (force : bool) (ring : list oid) (w : world) (found : bool)
    (best : pyresult) : walk_result :=
  match ring with
  | [] => Walked w found best
  | worksource :: ring' =>
      match visit_child fetch jobs force w worksource found best with
      | Walked w found best => walk_list fetch jobs force ring' w found best
      | r => r
      end
  end.

(** The children in the order in which a walk that starts at [startindex]
    visits them. *)
Definition ring_order (startindex : nat) (snapshot : list oid) : list oid :=
  drop startindex snapshot ++ take startindex snapshot.

(** [k] walks in a row that find no eligible child, each followed by a tick
    of the distributor: the world and the [best] they leave behind, or
    [None] when one of them finds a child, returns or raises. *)
Fixpoint fruitless_walks (time_time : nat -> Qc)
    (fetch : oid -> Z -> Qc -> world -> world * outcome (pyresult * Qc))
    (self : oid) (jobs : Qc) (force : bool) (ring : list oid) (k : nat)
    (w : world) (best : pyresult) : option (world * pyresult) :=
  match k with
  | O => Some (w, best)
  | S k' =>
      match walk_list fetch jobs force ring w false best with
      | Walked w1 false best1 =>
          fruitless_walks time_time fetch self jobs force ring k'
                          (_distribute_mhashes time_time w1 self) best1
      | _ => None
      end
  end.

(** How the walk that ends the loop decides what [_start_fetcher] hands
    back: the non-zero result of a child with its jobs, the exception of a
    child, or [(best, 0)] once a child has been found. *)
Definition walk_ends (r : walk_result) (w' : world)
    (out : outcome (pyresult * Qc)) : Prop :=
  match r with
  | Walked w found best => found = true /\ w' = w /\ out = Returned (best, 0)
  | WalkReturn w result gotjobs => w' = w /\ out = Returned (result, gotjobs)
  | WalkRaise w e => w' = w /\ out = Raised e
  end.

(** A cascade over a fixed list of children: every child of the list is
    called in turn, in the world its predecessors left, and logged with
    whether the call raised. *)
Fixpoint cascade_list (call : oid -> world -> world * outcome unit)
    (l : list oid) (w : world) : world * list event :=
  match l with
  | [] => (w, [])
  | worksource :: l' =>
      let '(w, r) := call worksource w in
      let '(w, log) := cascade_list call l' w in
      (w, ChildCall worksource (has_raised r) :: log)
  end.

(** A child's [start] or [stop] that takes the child out of the list of the
    group [0] and then raises. *)
Definition call_detaching : oid -> world -> world * outcome unit :=
  fun c w =>
    (modify w 0%nat (fun o => set_children (without c (children o)) o),
     Raised ChildError).

(** ** Numbers and heap: basic facts *)

Lemma Qcltb_lt (x y : Qc) : Qcltb x y = true <-> x < y.
Proof.
  unfold Qcltb. rewrite Qclt_alt. destruct (x ?= y); split; congruence.
Qed.

Lemma Qcleb_le (x y : Qc) : Qcleb x y = true <-> x <= y.
Proof.
  unfold Qcleb. rewrite Qcle_alt. destruct (x ?= y); split; congruence.
Qed.

Lemma Qceqb_eq (x y : Qc) : Qceqb x y = true <-> x = y.
Proof.
  unfold Qceqb. rewrite Qceq_alt. destruct (x ?= y); split; congruence.
Qed.

Lemma Qceqb_neq (x y : Qc) : Qceqb x y = false -> x <> y.
Proof.
  intros H E. apply Qceqb_eq in E. congruence.
Qed.

Lemma heap_modify_eq (w : world) (k : oid) f :
  heap (modify w k f) k = f (heap w k).
Proof. unfold modify; simpl. now rewrite Nat.eqb_refl. Qed.

Lemma heap_modify_ne (w : world) (k j : oid) f :
  j <> k -> heap (modify w k f) j = heap w j.
Proof.
  intros H. unfold modify; simpl.
  destruct (Nat.eqb_spec j k); [contradiction | reflexivity].
Qed.

Lemma same_settings_refl w : same_settings w w.
Proof. intros x; repeat split. Qed.

Lemma same_settings_trans w1 w2 w3 :
  same_settings w1 w2 -> same_settings w2 w3 -> same_settings w1 w3.
Proof.
  intros H12 H23 x. destruct (H12 x) as (a & b & c & d & e).
  destruct (H23 x) as (a' & b' & c' & d' & e').
  repeat split; congruence.
Qed.

Lemma same_settings_modify w k f :
  (forall o, enabled (f o) = enabled o /\ priority (f o) = priority o /\
             hashrate (f o) = hashrate o /\ children (f o) = children o /\
             distribution_granularity (f o) = distribution_granularity o) ->
  same_settings w (modify w k f).
Proof.
  intros Hf x. destruct (Nat.eq_dec x k) as [->|Hne].
  - rewrite heap_modify_eq. apply Hf.
  - rewrite heap_modify_ne by assumption. repeat split.
Qed.

Lemma sum_enabled_same_settings w w' f l :
  same_settings w w' ->
  (forall x, f (heap w' x) = f (heap w x)) ->
  sum_enabled w' f l = sum_enabled w f l.
Proof.
  intros Hs Hf. induction l as [|c l IH]; simpl; [reflexivity|].
  destruct (Hs c) as (-> & _). rewrite Hf, IH. reflexivity.
Qed.

Lemma sum_enabled_scale w (k : Qc) f l :
  sum_enabled w (fun o => k * f o) l = k * sum_enabled w f l.
Proof.
  induction l as [|c l IH]; simpl; [ring|].
  rewrite IH. destruct (enabled (heap w c)); ring.
Qed.

(** ** The quota distributor *)

Lemma first_pass_cons ts c l acc :
  first_pass ts (c :: l) acc = first_pass ts l (first_pass_step ts acc c).
Proof. reflexivity. Qed.

Lemma second_pass_cons u c l acc :
  second_pass u (c :: l) acc = second_pass u l (second_pass_step u acc c).
Proof. reflexivity. Qed.

Lemma first_pass_step_disabled ts w r tp c :
  enabled (heap w c) = false ->
  first_pass_step ts (w, r, tp) c = (w, r, tp).
Proof. intros H. unfold first_pass_step. now rewrite H. Qed.

Lemma first_pass_step_enabled ts w r tp c :
  enabled (heap w c) = true ->
  exists w',
    first_pass_step ts (w, r, tp) c
      = (w', r - ts * hashrate (heap w c), tp + priority (heap w c)) /\
    same_settings w w' /\
    (forall x, x <> c -> heap w' x = heap w x) /\
    mhashes_pending (heap w' c)
      = mhashes_pending (heap w c)
        + (ts * hashrate (heap w c) + mhashes_deferred (heap w c) * tenth) /\
    mhashes_deferred (heap w' c) = mhashes_deferred (heap w c) * nine_tenths.
Proof.
  intros H. unfold first_pass_step. rewrite H.
  eexists; split; [reflexivity|]. split; [|split; [|split]].
  - eapply same_settings_trans; apply same_settings_modify;
      intros o; repeat split.
  - intros x Hx. now rewrite !heap_modify_ne by assumption.
  - now rewrite !heap_modify_eq.
  - now rewrite !heap_modify_eq.
Qed.

Lemma first_pass_totals ts l : forall w r tp,
  same_settings w (first_pass ts l (w, r, tp)).1.1 /\
  (first_pass ts l (w, r, tp)).1.2
    = r - sum_enabled w (fun o => ts * hashrate o) l /\
  (first_pass ts l (w, r, tp)).2 = tp + sum_enabled w priority l.
Proof.
  induction l as [|c l IH]; intros w r tp.
  - simpl. split; [apply same_settings_refl|]. split; ring.
  - rewrite first_pass_cons.
    destruct (enabled (heap w c)) eqn:E.
    + destruct (first_pass_step_enabled ts w r tp c E)
        as (w' & -> & Hs & _).
      destruct (IH w' (r - ts * hashrate (heap w c)) (tp + priority (heap w c)))
        as (Hs' & -> & ->).
      split; [eapply same_settings_trans; eassumption|].
      rewrite !(sum_enabled_same_settings w w') by
        (try assumption; intros x; destruct (Hs x) as (_ & ? & ? & _); congruence).
      simpl; rewrite E. split; ring.
    + rewrite first_pass_step_disabled by assumption.
      destruct (IH w r tp) as (Hs' & -> & ->).
      split; [assumption|]. simpl; rewrite E. split; ring.
Qed.

Lemma first_pass_untouched ts l : forall w r tp c,
  c ∉ l \/ enabled (heap w c) = false ->
  heap (first_pass ts l (w, r, tp)).1.1 c = heap w c.
Proof.
  induction l as [|a l IH]; intros w r tp c H; [reflexivity|].
  rewrite first_pass_cons.
  destruct (enabled (heap w a)) eqn:E.
  - destruct (first_pass_step_enabled ts w r tp a E)
      as (w' & -> & Hs & Ho & _).
    assert (c <> a) as Hne.
    { destruct H as [H|H]; [|congruence].
      intros ->. apply H. left. }
    rewrite IH.
    + now apply Ho.
    + destruct H as [H|H].
      * left. intros Hin. apply H. now right.
      * right. destruct (Hs c) as (-> & _). exact H.
  - rewrite first_pass_step_disabled by assumption.
    apply IH. destruct H as [H|H]; [left|now right].
    intros Hin. apply H. now right.
Qed.

Lemma first_pass_child ts l : forall w r tp c,
  NoDup l -> c ∈ l -> enabled (heap w c) = true ->
  mhashes_pending (heap (first_pass ts l (w, r, tp)).1.1 c)
    = mhashes_pending (heap w c)
      + (ts * hashrate (heap w c) + mhashes_deferred (heap w c) * tenth) /\
  mhashes_deferred (heap (first_pass ts l (w, r, tp)).1.1 c)
    = mhashes_deferred (heap w c) * nine_tenths.
Proof.
  induction l as [|a l IH]; intros w r tp c Hnd Hin Hen.
  - inversion Hin.
  - rewrite first_pass_cons.
    apply NoDup_cons in Hnd as [Hna Hnd].
    destruct (decide (c = a)) as [->|Hne].
    + destruct (first_pass_step_enabled ts w r tp a Hen)
        as (w' & -> & _ & _ & Hp & Hd).
      rewrite first_pass_untouched by now left.
      now split.
    + apply elem_of_cons in Hin as [?|Hin]; [contradiction|].
      destruct (enabled (heap w a)) eqn:E.
      * destruct (first_pass_step_enabled ts w r tp a E)
          as (w' & -> & Hs & Ho & _).
        destruct (IH w' (r - ts * hashrate (heap w a))
                     (tp + priority (heap w a)) c Hnd Hin) as [Hp Hd].
        { destruct (Hs c) as (-> & _). exact Hen. }
        rewrite Hp, Hd, (Ho c Hne). now split.
      * rewrite first_pass_step_disabled by assumption.
        now apply IH.
Qed.

Lemma second_pass_step_disabled u w r c :
  enabled (heap w c) = false -> second_pass_step u (w, r) c = (w, r).
Proof. intros H. unfold second_pass_step. now rewrite H. Qed.

Lemma second_pass_step_enabled u w r c :
  enabled (heap w c) = true ->
  exists w',
    second_pass_step u (w, r) c = (w', r - u * priority (heap w c)) /\
    same_settings w w' /\
    (forall x, x <> c -> heap w' x = heap w x) /\
    mhashes_pending (heap w' c)
      = mhashes_pending (heap w c) + u * priority (heap w c) /\
    mhashes_deferred (heap w' c) = mhashes_deferred (heap w c).
Proof.
  intros H. unfold second_pass_step. rewrite H.
  eexists; split; [reflexivity|]. split; [|split; [|split]].
  - apply same_settings_modify; intros o; repeat split.
  - intros x Hx. now rewrite heap_modify_ne by assumption.
  - now rewrite heap_modify_eq.
  - now rewrite heap_modify_eq.
Qed.

Lemma second_pass_totals u l : forall w r,
  same_settings w (second_pass u l (w, r)).1 /\
  (second_pass u l (w, r)).2 = r - u * sum_enabled w priority l.
Proof.
  induction l as [|c l IH]; intros w r.
  - simpl. split; [apply same_settings_refl|ring].
  - rewrite second_pass_cons.
    destruct (enabled (heap w c)) eqn:E.
    + destruct (second_pass_step_enabled u w r c E) as (w' & -> & Hs & _).
      destruct (IH w' (r - u * priority (heap w c))) as (Hs' & ->).
      split; [eapply same_settings_trans; eassumption|].
      rewrite (sum_enabled_same_settings w w') by
        (try assumption; intros x; destruct (Hs x) as (_ & ? & _); congruence).
      simpl; rewrite E. ring.
    + rewrite second_pass_step_disabled by assumption.
      destruct (IH w r) as (Hs' & ->). split; [assumption|].
      simpl; rewrite E. ring.
Qed.

Lemma second_pass_deferred u l : forall w r c,
  mhashes_deferred (heap (second_pass u l (w, r)).1 c)
    = mhashes_deferred (heap w c).
Proof.
  induction l as [|a l IH]; intros w r c; [reflexivity|].
  rewrite second_pass_cons.
  destruct (enabled (heap w a)) eqn:E.
  - destruct (second_pass_step_enabled u w r a E)
      as (w' & -> & _ & Ho & _ & Hd).
    rewrite IH. destruct (decide (c = a)) as [->|Hne]; [exact Hd|].
    now rewrite Ho.
  - rewrite second_pass_step_disabled by assumption. apply IH.
Qed.

Lemma second_pass_untouched u l : forall w r c,
  c ∉ l \/ enabled (heap w c) = false ->
  heap (second_pass u l (w, r)).1 c = heap w c.
Proof.
  induction l as [|a l IH]; intros w r c H; [reflexivity|].
  rewrite second_pass_cons.
  destruct (enabled (heap w a)) eqn:E.
  - destruct (second_pass_step_enabled u w r a E) as (w' & -> & Hs & Ho & _).
    assert (c <> a) as Hne.
    { destruct H as [H|H]; [|congruence].
      intros ->. apply H. left. }
    rewrite IH.
    + now apply Ho.
    + destruct H as [H|H].
      * left. intros Hin. apply H. now right.
      * right. destruct (Hs c) as (-> & _). exact H.
  - rewrite second_pass_step_disabled by assumption.
    apply IH. destruct H as [H|H]; [left|now right].
    intros Hin. apply H. now right.
Qed.

Lemma second_pass_child u l : forall w r c,
  NoDup l -> c ∈ l -> enabled (heap w c) = true ->
  mhashes_pending (heap (second_pass u l (w, r)).1 c)
    = mhashes_pending (heap w c) + u * priority (heap w c).
Proof.
  induction l as [|a l IH]; intros w r c Hnd Hin Hen.
  - inversion Hin.
  - rewrite second_pass_cons.
    apply NoDup_cons in Hnd as [Hna Hnd].
    destruct (decide (c = a)) as [->|Hne].
    + destruct (second_pass_step_enabled u w r a Hen)
        as (w' & -> & _ & _ & Hp & _).
      rewrite second_pass_untouched by now left.
      exact Hp.
    + apply elem_of_cons in Hin as [?|Hin]; [contradiction|].
      destruct (enabled (heap w a)) eqn:E.
      * destruct (second_pass_step_enabled u w r a E)
          as (w' & -> & Hs & Ho & _).
        rewrite (IH w' (r - u * priority (heap w a)) c Hnd Hin).
        -- now rewrite (Ho c Hne).
        -- destruct (Hs c) as (-> & _). exact Hen.
      * rewrite second_pass_step_disabled by assumption.
        now apply IH.
Qed.

(** One tick, spelled out on the world the tick starts from. *)
Lemma distribute_tick_unfold time_time w self :
  let now := time_time (clock_reads w) in
  let ts := now - last_time (heap w self) in
  let w0 := modify (mkWorld (heap w) (S (clock_reads w))) self
                   (set_last_time now) in
  let fp := first_pass ts (children (heap w self))
                       (w0, minted_pool w self, 0) in
  let t := distribute_tick time_time w self in
  same_settings w w0 /\
  (forall x, mhashes_pending (heap w0 x) = mhashes_pending (heap w x) /\
             mhashes_deferred (heap w0 x) = mhashes_deferred (heap w x)) /\
  tick_timestep t = ts /\
  tick_pool t = minted_pool w self /\
  tick_after_first t = fp.1.1 /\
  tick_remainder t = fp.1.2 /\
  tick_total_priority t = fp.2 /\
  (tick_world t, tick_left t)
    = (if Qcltb 0 fp.1.2 && Qcltb 0 fp.2
       then second_pass (fp.1.2 / fp.2) (children (heap w self)) (fp.1.1, fp.1.2)
       else (fp.1.1, fp.1.2)).
Proof.
  intros now ts w0 fp t.
  assert (same_settings w w0) as Hs0.
  { apply (same_settings_modify (mkWorld (heap w) (S (clock_reads w)))).
    intros o; repeat split. }
  assert (children (heap w0 self) = children (heap w self)) as Hc0
    by (destruct (Hs0 self) as (_ & _ & _ & ? & _); assumption).
  assert (minted_pool w0 self = minted_pool w self) as Hp0.
  { unfold minted_pool. destruct (Hs0 self) as (_ & _ & _ & _ & ->).
    reflexivity. }
  split; [exact Hs0|]. split.
  { intros x. unfold w0. destruct (Nat.eq_dec x self) as [->|Hne].
    - rewrite heap_modify_eq. split; reflexivity.
    - rewrite heap_modify_ne by assumption. split; reflexivity. }
  subst t. unfold distribute_tick, read_clock.
  cbv zeta. fold now. cbn [heap]. fold ts. fold w0.
  rewrite Hc0, Hp0. fold fp.
  destruct fp as [[w1 r1] tp1] eqn:Efp. cbn [fst snd].
  assert (children (heap w1 self) = children (heap w self)) as Hc1.
  { pose proof (first_pass_totals ts (children (heap w self)) w0
                                  (minted_pool w self) 0) as (Hs1 & _).
    fold fp in Hs1. rewrite Efp in Hs1. cbn [fst] in Hs1.
    destruct (Hs1 self) as (_ & _ & _ & -> & _). exact Hc0. }
  destruct (Qcltb 0 r1 && Qcltb 0 tp1).
  - rewrite Hc1.
    destruct (second_pass (r1 / tp1) (children (heap w self)) (w1, r1))
      as [w2 lo]. cbn. repeat split.
  - cbn. repeat split.
Qed.

(** *** The minted pool *)

(** C1, as stated, fails: with 2 seconds elapsed the tick still starts from
    a pool of [unit_rate * 16], not [2 * unit_rate * 16]. *)
Lemma C1_pool_not_scaled_by_elapsed :
  let t := distribute_tick (clock_at 2) two_leaves 0%nat in
  tick_timestep t = 2 /\
  tick_pool t
    <> tick_timestep t * unit_rate
       * distribution_granularity (heap two_leaves 0%nat).
Proof.
  split.
  - apply Qceqb_eq. vm_compute. reflexivity.
  - apply Qceqb_neq. vm_compute. reflexivity.
Qed.

(** C1, amended: the pool a tick starts from is
    [unit_rate * distribution_granularity], whatever the elapsed time and
    the children; the first loop takes [timestep * hashrate] out of it for
    every enabled child, so the pool is recovered from what is left after
    the first loop plus what was taken out. *)
Theorem C1_minted_pool (time_time : nat -> Qc) (w : world) (self : oid) :
  let t := distribute_tick time_time w self in
  tick_pool t = unit_rate * distribution_granularity (heap w self) /\
  tick_remainder t
    + sum_enabled w (fun o => tick_timestep t * hashrate o)
                  (children (heap w self))
    = unit_rate * distribution_granularity (heap w self).
Proof.
  intros t.
  destruct (distribute_tick_unfold time_time w self)
    as (Hs0 & _ & Hts & Hpool & _ & Hrem & _).
  fold t in Hts, Hpool, Hrem.
  split; [exact Hpool|].
  rewrite Hrem, Hts.
  match goal with
  | |- context [first_pass ?ts ?l (?w0, ?r, ?tp)] =>
      destruct (first_pass_totals ts l w0 r tp) as (_ & -> & _);
      rewrite (sum_enabled_same_settings w w0)
        by (try assumption; intros x;
            destruct (Hs0 x) as (_ & _ & ? & _); congruence)
  end.
  unfold minted_pool. ring.
Qed.

(** *** The first loop *)

(** C6, as stated, fails: the leaf is credited
    [timestep * hashrate + 0.1 * deferred = 2], yet only
    [timestep * hashrate = 1] leaves the pool. *)
Lemma C6_pool_debited_less_than_credited :
  let w := one_leaf true 0 in
  let t := distribute_tick (clock_at 1) w 0%nat in
  let credited :=
    mhashes_pending (heap (tick_after_first t) 1%nat)
    - mhashes_pending (heap w 1%nat) in
  enabled (heap w 1%nat) = true /\
  credited = tick_timestep t * hashrate (heap w 1%nat)
             + tenth * mhashes_deferred (heap w 1%nat) /\
  tick_pool t - tick_remainder t <> credited.
Proof.
  split; [reflexivity|]. split.
  - apply Qceqb_eq. vm_compute. reflexivity.
  - apply Qceqb_neq. vm_compute. reflexivity.
Qed.

(** C6, amended: in the first loop every enabled child (listed once) has
    its pending quota raised by
    [timestep * hashrate + 0.1 * deferred], and only the
    [timestep * hashrate] part of it is taken out of the pool. *)
Theorem C6_first_pass_credit (time_time : nat -> Qc) (w : world)
    (self c : oid) :
  NoDup (children (heap w self)) ->
  c ∈ children (heap w self) ->
  enabled (heap w c) = true ->
  let t := distribute_tick time_time w self in
  mhashes_pending (heap (tick_after_first t) c)
    = mhashes_pending (heap w c)
      + (tick_timestep t * hashrate (heap w c)
         + tenth * mhashes_deferred (heap w c)) /\
  tick_remainder t
    = tick_pool t
      - sum_enabled w (fun o => tick_timestep t * hashrate o)
                    (children (heap w self)).
Proof.
  intros Hnd Hin Hen t.
  destruct (distribute_tick_unfold time_time w self)
    as (Hs0 & Hq0 & Hts & Hpool & Haf & Hrem & _).
  fold t in Hts, Hpool, Haf, Hrem.
  rewrite Haf, Hrem, Hpool, Hts.
  match goal with
  | |- context [first_pass ?ts ?l (?w0, ?r, ?tp)] =>
      destruct (first_pass_totals ts l w0 r tp) as (_ & -> & _);
      destruct (first_pass_child ts l w0 r tp c Hnd Hin) as (-> & _);
      [ destruct (Hs0 c) as (-> & _); exact Hen | ];
      rewrite (sum_enabled_same_settings w w0)
        by (try assumption; intros x;
            destruct (Hs0 x) as (_ & _ & ? & _); congruence);
      destruct (Hs0 c) as (_ & _ & -> & _);
      destruct (Hq0 c) as (-> & ->)
  end.
  split; ring.
Qed.

Lemma C6_first_pass_credit_witness :
  let w := two_leaves in
  let t := distribute_tick (clock_at 1) w 0%nat in
  mhashes_pending (heap (tick_after_first t) 1%nat)
    = mhashes_pending (heap w 1%nat)
      + (tick_timestep t * hashrate (heap w 1%nat)
         + tenth * mhashes_deferred (heap w 1%nat)) /\
  tick_remainder t
    = tick_pool t
      - sum_enabled w (fun o => tick_timestep t * hashrate o)
                    (children (heap w 0%nat)).
Proof.
  apply (C6_first_pass_credit (clock_at 1) two_leaves 0%nat 1%nat).
  - apply (bool_decide_unpack _). vm_compute. exact I.
  - apply (bool_decide_unpack _). vm_compute. exact I.
  - reflexivity.
Defined.

(** *** Decay of the deferred quota *)

Lemma distribute_tick_world time_time w self :
  let t := distribute_tick time_time w self in
  (tick_world t = tick_after_first t /\ tick_left t = tick_remainder t /\
   (Qcltb 0 (tick_remainder t) && Qcltb 0 (tick_total_priority t)) = false)
  \/
  (0 < tick_remainder t /\ 0 < tick_total_priority t /\
   (tick_world t, tick_left t)
     = second_pass (tick_remainder t / tick_total_priority t)
                   (children (heap w self))
                   (tick_after_first t, tick_remainder t)).
Proof.
  intros t.
  destruct (distribute_tick_unfold time_time w self)
    as (_ & _ & _ & _ & Haf & Hrem & Htp & Hw).
  fold t in Haf, Hrem, Htp, Hw.
  rewrite <- Haf, <- Hrem, <- Htp in Hw.
  destruct (Qcltb 0 (tick_remainder t)) eqn:E1;
    [destruct (Qcltb 0 (tick_total_priority t)) eqn:E2|]; cbn [andb] in Hw.
  - right. apply Qcltb_lt in E1, E2. repeat split; assumption.
  - left. injection Hw as -> ->. repeat split; reflexivity.
  - left. injection Hw as -> ->. repeat split; reflexivity.
Qed.

Lemma distribute_same_settings time_time w self :
  same_settings w (_distribute_mhashes time_time w self).
Proof.
  unfold _distribute_mhashes.
  destruct (distribute_tick_unfold time_time w self)
    as (Hs0 & _ & _ & _ & Haf & _).
  assert (same_settings w (tick_after_first (distribute_tick time_time w self)))
    as Hs1.
  { rewrite Haf. eapply same_settings_trans; [exact Hs0|].
    apply first_pass_totals. }
  destruct (distribute_tick_world time_time w self)
    as [(-> & _) | (_ & _ & Hw)]; [exact Hs1|].
  apply (f_equal fst) in Hw. cbn [fst] in Hw. rewrite Hw.
  eapply same_settings_trans; [exact Hs1|]. apply second_pass_totals.
Qed.

Lemma distribute_deferred time_time w self c :
  mhashes_deferred (heap (_distribute_mhashes time_time w self) c)
    = mhashes_deferred
        (heap (tick_after_first (distribute_tick time_time w self)) c).
Proof.
  unfold _distribute_mhashes.
  destruct (distribute_tick_world time_time w self)
    as [(-> & _) | (_ & _ & Hw)]; [reflexivity|].
  apply (f_equal fst) in Hw. cbn [fst] in Hw. rewrite Hw.
  apply second_pass_deferred.
Qed.

Lemma distribute_deferred_enabled time_time w self c :
  NoDup (children (heap w self)) ->
  c ∈ children (heap w self) ->
  enabled (heap w c) = true ->
  mhashes_deferred (heap (_distribute_mhashes time_time w self) c)
    = mhashes_deferred (heap w c) * nine_tenths.
Proof.
  intros Hnd Hin Hen. rewrite distribute_deferred.
  destruct (distribute_tick_unfold time_time w self)
    as (Hs0 & Hq0 & _ & _ & -> & _).
  match goal with
  | |- context [first_pass ?ts ?l (?w0, ?r, ?tp)] =>
      destruct (first_pass_child ts l w0 r tp c Hnd Hin) as (_ & ->);
      [ destruct (Hs0 c) as (-> & _); exact Hen | ];
      destruct (Hq0 c) as (_ & ->)
  end.
  reflexivity.
Qed.

Lemma distribute_deferred_disabled time_time w self c :
  enabled (heap w c) = false ->
  mhashes_deferred (heap (_distribute_mhashes time_time w self) c)
    = mhashes_deferred (heap w c).
Proof.
  intros Hen. rewrite distribute_deferred.
  destruct (distribute_tick_unfold time_time w self)
    as (Hs0 & Hq0 & _ & _ & -> & _).
  rewrite first_pass_untouched.
  - apply Hq0.
  - right. destruct (Hs0 c) as (-> & _). exact Hen.
Qed.

Lemma nine_tenths_shrinks (d : Qc) :
  d <> 0 -> Qcabs.Qcabs (d * nine_tenths) < Qcabs.Qcabs d.
Proof.
  intros Hd. rewrite Qcabs.Qcabs_Qcmult.
  assert (0 < Qcabs.Qcabs d) as Hpos.
  { destruct (Qcle_lt_or_eq _ _ (Qcabs.Qcabs_nonneg d)) as [H|H]; [exact H|].
    symmetry in H. apply Qcabs.Qcabs_null in H. contradiction. }
  rewrite (Qcabs.Qcabs_pos nine_tenths) by (vm_compute; discriminate).
  rewrite <- (Qcmult_1_r (Qcabs.Qcabs d)) at 2.
  apply Qcmult_lt_mono_pos_l; [exact Hpos|].
  vm_compute. reflexivity.
Qed.

Lemma ticks_deferred time_time n : forall w self c,
  NoDup (children (heap w self)) ->
  c ∈ children (heap w self) ->
  enabled (heap w c) = true ->
  mhashes_deferred (heap (ticks time_time n w self) c)
    = mhashes_deferred (heap w c) * nine_tenths ^ n.
Proof.
  induction n as [|n IH]; intros w self c Hnd Hin Hen; simpl.
  - ring.
  - pose proof (distribute_same_settings time_time w self) as Hs.
    rewrite IH.
    + rewrite distribute_deferred_enabled by assumption. ring.
    + destruct (Hs self) as (_ & _ & _ & -> & _). exact Hnd.
    + destruct (Hs self) as (_ & _ & _ & -> & _). exact Hin.
    + destruct (Hs c) as (-> & _). exact Hen.
Qed.

(** C7, as stated, fails: a disabled child keeps its deferred quota of 10
    through a tick; it is not multiplied by 0.9. *)
Lemma C7_disabled_child_not_decayed :
  let w := one_leaf false 0 in
  let w' := _distribute_mhashes (clock_at 1) w 0%nat in
  1%nat ∈ children (heap w 0%nat) /\
  enabled (heap w 1%nat) = false /\
  mhashes_deferred (heap w' 1%nat) = mhashes_deferred (heap w 1%nat) /\
  mhashes_deferred (heap w' 1%nat)
    <> mhashes_deferred (heap w 1%nat) * nine_tenths.
Proof.
  split; [apply (bool_decide_unpack _); vm_compute; exact I|].
  split; [reflexivity|]. split.
  - apply Qceqb_eq. vm_compute. reflexivity.
  - apply Qceqb_neq. vm_compute. reflexivity.
Qed.

(** C7, amended: a tick multiplies by 0.9 the deferred quota of every
    enabled child (listed once), whatever it was allocated, and leaves the
    deferred quota of a disabled child as it is; so the deferred quota of an
    enabled child, when not zero, strictly decreases in magnitude at every
    tick, and after [n] ticks it is [0.9 ^ n] times what it was. *)
Theorem C7_deferred_decay (time_time : nat -> Qc) (w : world) (self c : oid) :
  NoDup (children (heap w self)) ->
  c ∈ children (heap w self) ->
  let w' := _distribute_mhashes time_time w self in
  (enabled (heap w c) = true ->
     mhashes_deferred (heap w' c) = mhashes_deferred (heap w c) * nine_tenths /\
     (mhashes_deferred (heap w c) <> 0 ->
        Qcabs.Qcabs (mhashes_deferred (heap w' c)) < Qcabs.Qcabs (mhashes_deferred (heap w c))) /\
     (forall n, mhashes_deferred (heap (ticks time_time n w self) c)
                = mhashes_deferred (heap w c) * nine_tenths ^ n)) /\
  (enabled (heap w c) = false ->
     mhashes_deferred (heap w' c) = mhashes_deferred (heap w c)).
Proof.
  intros Hnd Hin w'. split.
  - intros Hen. unfold w'.
    rewrite distribute_deferred_enabled by assumption.
    split; [reflexivity|]. split.
    + apply nine_tenths_shrinks.
    + intros n. now apply ticks_deferred.
  - intros Hen. now apply distribute_deferred_disabled.
Qed.

Lemma C7_deferred_decay_witness :
  let w := two_leaves in
  let w' := _distribute_mhashes (clock_at 1) w 0%nat in
  enabled (heap w 1%nat) = true /\
  mhashes_deferred (heap w 1%nat) <> 0 /\
  mhashes_deferred (heap w' 1%nat) = mhashes_deferred (heap w 1%nat) * nine_tenths /\
  Qcabs.Qcabs (mhashes_deferred (heap w' 1%nat)) < Qcabs.Qcabs (mhashes_deferred (heap w 1%nat)).
Proof.
  assert (enabled (heap two_leaves 1%nat) = true) as Hen by reflexivity.
  assert (mhashes_deferred (heap two_leaves 1%nat) <> 0) as Hd
    by (apply Qceqb_neq; vm_compute; reflexivity).
  destruct (C7_deferred_decay (clock_at 1) two_leaves 0%nat 1%nat) as [H _].
  - apply (bool_decide_unpack _). vm_compute. exact I.
  - apply (bool_decide_unpack _). vm_compute. exact I.
  - destruct (H Hen) as (H1 & H2 & _).
    split; [exact Hen|]. split; [exact Hd|]. split; [exact H1|exact (H2 Hd)].
Defined.

(** *** The second loop *)




(** ** The fetch dispatcher *)

Section DispatcherFacts.

Variable time_time : nat -> Qc.
Variable fetch : oid -> Z -> Qc -> world -> world * outcome (pyresult * Qc).

Lemma visit_child_ok jobs force w worksource found best :
  walk_ok fetch (found || force)
          (visit_child fetch jobs force w worksource found best).
Proof.
  unfold visit_child.
  destruct (force || Qcleb _ _) eqn:Hel.
  - match goal with
    | |- context [fetch ?c ?n ?j ?x] => destruct (fetch c n j x) as [w' o] eqn:Ef
    end.
    destruct o as [[result gotjobs]|e]; cbn.
    + destruct (is_not_False result); [destruct (truthy result)|]; cbn; auto.
    + eexists _, _, _, _. rewrite Ef. reflexivity.
  - cbn. apply orb_false_iff in Hel as [-> _]. rewrite orb_false_r. auto.
Qed.

Lemma walk_ok_mono (s s' : bool) r :
  (s' = true -> s = true) -> walk_ok fetch s r -> walk_ok fetch s' r.
Proof. destruct r; cbn; auto. Qed.

(** From an index at or below [startindex] the walk ends at [startindex]. *)
Lemma ring_walk_up_to_start snapshot startindex jobs force k :
  forall fuel index w found best,
    (index + k = startindex)%nat ->
    (startindex < length snapshot)%nat ->
    (k + 1 <= fuel)%nat ->
    exists r,
      ring_walk fetch fuel snapshot startindex jobs force w index false
                found best = Some r /\
      walk_ok fetch found r.
Proof.
  induction k as [|k IH]; intros fuel index w found best Hk Hlen Hfuel;
    (destruct fuel as [|fuel]; [lia|]); cbn [ring_walk].
  - replace index with startindex by lia. rewrite Nat.eqb_refl. cbn.
    eexists; split; [reflexivity|]. cbn. auto.
  - destruct (Nat.eqb_spec index startindex) as [?|_]; [lia|]. cbn [negb orb].
    destruct (lookup_lt_is_Some_2 snapshot index ltac:(lia)) as [c ->].
    pose proof (visit_child_ok jobs force w c found best) as Hv.
    destruct (visit_child fetch jobs force w c found best)
      as [w' found' best'|w' result gotjobs|w' e].
    + destruct (Nat.leb_spec (length snapshot) (index + 1)) as [?|_]; [lia|].
      destruct (IH fuel (index + 1)%nat w' found' best')
        as (r & Hr & Hok); [lia|lia|lia|].
      exists r. split; [exact Hr|].
      eapply walk_ok_mono; [|exact Hok].
      intros ->. apply Hv. reflexivity.
    + eexists; split; [reflexivity|exact I].
    + eexists; split; [reflexivity|exact Hv].
Qed.

(** From an index above [startindex] the walk runs to the end of the
    snapshot, wraps, and ends at [startindex]. *)
Lemma ring_walk_from_above snapshot startindex jobs force k :
  forall fuel index w found best,
    (startindex < index)%nat ->
    (index + S k = length snapshot)%nat ->
    (S k + startindex + 1 <= fuel)%nat ->
    exists r,
      ring_walk fetch fuel snapshot startindex jobs force w index false
                found best = Some r /\
      walk_ok fetch found r.
Proof.
  induction k as [|k IH]; intros fuel index w found best Hgt Hk Hfuel;
    (destruct fuel as [|fuel]; [lia|]); cbn [ring_walk];
    (destruct (Nat.eqb_spec index startindex) as [?|_]; [lia|]);
    cbn [negb orb];
    destruct (lookup_lt_is_Some_2 snapshot index ltac:(lia)) as [c ->];
    pose proof (visit_child_ok jobs force w c found best) as Hv;
    destruct (visit_child fetch jobs force w c found best)
      as [w' found' best'|w' result gotjobs|w' e];
    try (eexists; split; [reflexivity|exact I]);
    try (eexists; split; [reflexivity|exact Hv]).
  - destruct (Nat.leb_spec (length snapshot) (index + 1)) as [_|?]; [|lia].
    destruct (ring_walk_up_to_start snapshot startindex jobs force startindex
                fuel 0%nat w' found' best') as (r & Hr & Hok); [lia|lia|lia|].
    exists r. split; [exact Hr|].
    eapply walk_ok_mono; [|exact Hok]. intros ->. apply Hv. reflexivity.
  - destruct (Nat.leb_spec (length snapshot) (index + 1)) as [?|_]; [lia|].
    destruct (IH fuel (index + 1)%nat w' found' best')
      as (r & Hr & Hok); [lia|lia|lia|].
    exists r. split; [exact Hr|].
    eapply walk_ok_mono; [|exact Hok]. intros ->. apply Hv. reflexivity.
Qed.

(** A whole walk: it ends, and it has found a child when one had been found
    before or when [force] is set. *)
Lemma ring_walk_ok snapshot startindex jobs force fuel w found best :
  (startindex < length snapshot)%nat ->
  (length snapshot + 1 <= fuel)%nat ->
  exists r,
    ring_walk fetch fuel snapshot startindex jobs force w startindex true
              found best = Some r /\
    walk_ok fetch (found || force) r.
Proof.
  intros Hlen Hfuel. destruct fuel as [|fuel]; [lia|]. cbn [ring_walk].
  rewrite orb_true_r.
  destruct (lookup_lt_is_Some_2 snapshot startindex Hlen) as [c ->].
  pose proof (visit_child_ok jobs force w c found best) as Hv.
  destruct (visit_child fetch jobs force w c found best)
    as [w' found' best'|w' result gotjobs|w' e];
    try (eexists; split; [reflexivity|exact I]);
    try (eexists; split; [reflexivity|exact Hv]).
  destruct (Nat.leb_spec (length snapshot) (startindex + 1)) as [?|?].
  - destruct (ring_walk_up_to_start snapshot startindex jobs force startindex
                fuel 0%nat w' found' best') as (r & Hr & Hok); [lia|lia|lia|].
    exists r. split; [exact Hr|].
    eapply walk_ok_mono; [|exact Hok]. exact Hv.
  - destruct (ring_walk_from_above snapshot startindex jobs force
                (length snapshot - startindex - 2) fuel (startindex + 1)%nat
                w' found' best') as (r & Hr & Hok); [lia|lia|lia|].
    exists r. split; [exact Hr|].
    eapply walk_ok_mono; [|exact Hok]. exact Hv.
Qed.

(** The loop of [_start_fetcher], entered with [iteration = i] and no child
    found so far: at most [102 - i] further walks, the first [101 - i] of
    them with the caller's [force]. *)
Lemma dispatch_loop_bounded self snapshot startindex jobs force0 n :
  forall fuel i w best,
    (i + n = 101)%nat ->
    (n + length snapshot + 2 <= fuel)%nat ->
    (startindex < length snapshot)%nat ->
    exists w' out rings,
      dispatch_loop time_time fetch fuel self snapshot startindex jobs
        (if (100 <? i)%nat then true else force0) w false best i
        (replicate i force0) = Some (w', out, rings) /\
      rings `prefix_of` (replicate 101 force0 ++ [true]) /\
      (i < length rings)%nat /\
      returned_or_child_raised fetch out.
Proof.
  induction n as [|n IH]; intros fuel i w best Hi Hfuel Hlen;
    (destruct fuel as [|fuel]; [lia|]); cbn [dispatch_loop negb].
  - destruct (Nat.ltb_spec 100 i) as [_|?]; [|lia].
    destruct (ring_walk_ok snapshot startindex jobs true (S fuel) w false best)
      as (r & -> & Hok); [lia|lia|].
    replace i with 101%nat by lia.
    destruct r as [w' found' best'|w' result gotjobs|w' e].
    + rewrite (Hok eq_refl). cbn [negb].
      destruct fuel as [|fuel]; [lia|].
      destruct (Nat.ltb_spec 150 (101 + 1)) as [?|_]; [lia|].
      cbn [dispatch_loop negb].
      eexists _, _, _. split; [reflexivity|].
      split; [reflexivity|]. split; [|exact I].
      rewrite length_app, length_replicate. cbn. lia.
    + eexists _, _, _. split; [reflexivity|].
      split; [reflexivity|]. split; [|exact I].
      rewrite length_app, length_replicate. cbn. lia.
    + eexists _, _, _. split; [reflexivity|].
      split; [reflexivity|]. split; [|exact Hok].
      rewrite length_app, length_replicate. cbn. lia.
  - destruct (Nat.ltb_spec 100 i) as [?|_]; [lia|].
    assert (replicate i force0 ++ [force0]
              `prefix_of` replicate 101 force0 ++ [true]) as Hpre.
    { rewrite <- replicate_S_end.
      replace 101%nat with (S i + (101 - S i))%nat at 1 by lia.
      rewrite replicate_add, <- app_assoc. eexists. reflexivity. }
    assert (i < length (replicate i force0 ++ [force0]))%nat as Hl.
    { rewrite length_app, length_replicate. cbn. lia. }
    destruct (ring_walk_ok snapshot startindex jobs force0 (S fuel) w false best)
      as (r & -> & Hok); [lia|lia|].
    destruct r as [w' found' best'|w' result gotjobs|w' e].
    + destruct (Nat.ltb_spec 150 (i + 1)) as [?|_]; [lia|].
      destruct found'; cbn [negb].
      * destruct fuel as [|fuel]; [lia|]. cbn [dispatch_loop negb].
        eexists _, _, _. split; [reflexivity|].
        split; [exact Hpre|]. split; [exact Hl|exact I].
      * rewrite <- replicate_S_end. replace (i + 1)%nat with (S i) by lia.
        destruct (IH fuel (S i) (_distribute_mhashes time_time w' self) best')
          as (w'' & out & rings & Hrun & Hp & Hlr & Ho); [lia|lia|lia|].
        exists w'', out, rings. split; [exact Hrun|].
        split; [exact Hp|]. split; [lia|exact Ho].
    + eexists _, _, _. split; [reflexivity|].
      split; [exact Hpre|]. split; [exact Hl|exact I].
    + eexists _, _, _. split; [reflexivity|].
      split; [exact Hpre|]. split; [exact Hl|exact Hok].
Qed.

(** The walks of the loop are walks over the children in ring order. *)
Lemma ring_walk_list_up_to_start snapshot startindex jobs force k :
  forall fuel index w found best,
    (index + k = startindex)%nat ->
    (startindex < length snapshot)%nat ->
    (k + 1 <= fuel)%nat ->
    ring_walk fetch fuel snapshot startindex jobs force w index false
              found best
      = Some (walk_list fetch jobs force (take k (drop index snapshot))
                        w found best).
Proof.
  induction k as [|k IH]; intros fuel index w found best Hk Hlen Hfuel;
    (destruct fuel as [|fuel]; [lia|]); cbn [ring_walk].
  - replace index with startindex by lia. rewrite Nat.eqb_refl. reflexivity.
  - destruct (Nat.eqb_spec index startindex) as [?|_]; [lia|]. cbn [negb orb].
    destruct (lookup_lt_is_Some_2 snapshot index ltac:(lia)) as [c Hc].
    rewrite Hc, (drop_S snapshot c index Hc). cbn [take walk_list].
    destruct (visit_child fetch jobs force w c found best)
      as [w' found' best'|w' result gotjobs|w' e]; try reflexivity.
    destruct (Nat.leb_spec (length snapshot) (index + 1)) as [?|_]; [lia|].
    replace (S index) with (index + 1)%nat by lia.
    apply IH; lia.
Qed.

Lemma ring_walk_list_from_above snapshot startindex jobs force k :
  forall fuel index w found best,
    (startindex < index)%nat ->
    (index + S k = length snapshot)%nat ->
    (S k + startindex + 1 <= fuel)%nat ->
    ring_walk fetch fuel snapshot startindex jobs force w index false
              found best
      = Some (walk_list fetch jobs force
                        (drop index snapshot ++ take startindex snapshot)
                        w found best).
Proof.
  induction k as [|k IH]; intros fuel index w found best Hgt Hk Hfuel;
    (destruct fuel as [|fuel]; [lia|]); cbn [ring_walk];
    (destruct (Nat.eqb_spec index startindex) as [?|_]; [lia|]);
    cbn [negb orb];
    destruct (lookup_lt_is_Some_2 snapshot index ltac:(lia)) as [c Hc];
    rewrite Hc, (drop_S snapshot c index Hc); cbn [app walk_list];
    destruct (visit_child fetch jobs force w c found best)
      as [w' found' best'|w' result gotjobs|w' e]; try reflexivity.
  - destruct (Nat.leb_spec (length snapshot) (index + 1)) as [_|?]; [|lia].
    rewrite (drop_ge snapshot (S index)) by lia. cbn [app].
    rewrite (ring_walk_list_up_to_start snapshot startindex jobs force
               startindex fuel 0%nat) by lia.
    now rewrite drop_0.
  - destruct (Nat.leb_spec (length snapshot) (index + 1)) as [?|_]; [lia|].
    replace (S index) with (index + 1)%nat by lia.
    apply IH; lia.
Qed.

Lemma ring_walk_list snapshot startindex jobs force fuel w found best :
  (startindex < length snapshot)%nat ->
  (length snapshot + 1 <= fuel)%nat ->
  ring_walk fetch fuel snapshot startindex jobs force w startindex true
            found best
    = Some (walk_list fetch jobs force (ring_order startindex snapshot)
                      w found best).
Proof.
  intros Hlen Hfuel. destruct fuel as [|fuel]; [lia|]. cbn [ring_walk].
  rewrite orb_true_r. unfold ring_order.
  destruct (lookup_lt_is_Some_2 snapshot startindex Hlen) as [c Hc].
  rewrite Hc, (drop_S snapshot c startindex Hc). cbn [app walk_list].
  destruct (visit_child fetch jobs force w c found best)
    as [w' found' best'|w' result gotjobs|w' e]; try reflexivity.
  destruct (Nat.leb_spec (length snapshot) (startindex + 1)) as [?|?].
  - rewrite (drop_ge snapshot (S startindex)) by lia. cbn [app].
    rewrite (ring_walk_list_up_to_start snapshot startindex jobs force
               startindex fuel 0%nat) by lia.
    now rewrite drop_0.
  - replace (S startindex) with (startindex + 1)%nat by lia.
    apply (ring_walk_list_from_above snapshot startindex jobs force
             (length snapshot - startindex - 2)); lia.
Qed.

(** The loop of [_start_fetcher], entered with [iteration = i] and no child
    found so far, spelled out: [k] fruitless walks with the caller's
    [force], each followed by a tick, then the walk that ends the loop,
    which runs with [force] set when it is the 102nd. *)
Lemma dispatch_loop_exact self snapshot startindex jobs force0 n :
  forall fuel i w best,
    (i + n = 101)%nat ->
    (n + length snapshot + 2 <= fuel)%nat ->
    (startindex < length snapshot)%nat ->
    exists k wk bestk w' out,
      (k <= n)%nat /\
      fruitless_walks time_time fetch self jobs force0
        (ring_order startindex snapshot) k w best = Some (wk, bestk) /\
      dispatch_loop time_time fetch fuel self snapshot startindex jobs
        (if (100 <? i)%nat then true else force0) w false best i
        (replicate i force0)
        = Some (w', out,
                replicate (i + k) force0
                ++ [if (i + k <? 101)%nat then force0 else true]) /\
      walk_ends (walk_list fetch jobs
                   (if (i + k <? 101)%nat then force0 else true)
                   (ring_order startindex snapshot) wk false bestk) w' out.
Proof.
  induction n as [|n IH]; intros fuel i w best Hi Hfuel Hlen;
    (destruct fuel as [|fuel]; [lia|]); cbn [dispatch_loop negb].
  - destruct (Nat.ltb_spec 100 i) as [_|?]; [|lia].
    pose proof (ring_walk_ok snapshot startindex jobs true (S fuel) w false best)
      as (r & Hr & Hok); [lia|lia|].
    rewrite ring_walk_list in Hr by lia. injection Hr as <-.
    rewrite ring_walk_list by lia.
    exists 0%nat, w, best. rewrite Nat.add_0_r.
    destruct (Nat.ltb_spec i 101) as [?|_]; [lia|].
    destruct (walk_list fetch jobs true (ring_order startindex snapshot) w
                        false best)
      as [w' found' best'|w' result gotjobs|w' e] eqn:Ew.
    + cbn in Hok. rewrite (Hok eq_refl). cbn [negb].
      destruct fuel as [|fuel]; [lia|].
      destruct (Nat.ltb_spec 150 (i + 1)) as [?|_]; [lia|].
      cbn [dispatch_loop negb].
      eexists _, _. split; [lia|]. split; [reflexivity|].
      split; [reflexivity|]. repeat split; reflexivity.
    + eexists _, _. split; [lia|]. split; [reflexivity|].
      split; [reflexivity|]. repeat split; reflexivity.
    + eexists _, _. split; [lia|]. split; [reflexivity|].
      split; [reflexivity|]. repeat split; reflexivity.
  - destruct (Nat.ltb_spec 100 i) as [?|_]; [lia|].
    rewrite ring_walk_list by lia.
    destruct (walk_list fetch jobs force0 (ring_order startindex snapshot) w
                        false best)
      as [w1 found1 best1|w1 result gotjobs|w1 e] eqn:Ew.
    + destruct (Nat.ltb_spec 150 (i + 1)) as [?|_]; [lia|].
      destruct found1; cbn [negb].
      * destruct fuel as [|fuel]; [lia|]. cbn [dispatch_loop negb].
        exists 0%nat, w, best. rewrite Nat.add_0_r.
        destruct (Nat.ltb_spec i 101) as [_|?]; [|lia].
        eexists _, _. split; [lia|]. split; [reflexivity|].
        split; [reflexivity|]. rewrite Ew. repeat split; reflexivity.
      * rewrite <- replicate_S_end. replace (i + 1)%nat with (S i) by lia.
        destruct (IH fuel (S i) (_distribute_mhashes time_time w1 self) best1)
          as (k & wk & bestk & w' & out & Hk & Hfw & Hrun & Hend);
          [lia|lia|lia|].
        exists (S k), wk, bestk, w', out. split; [lia|]. split.
        { cbn [fruitless_walks]. rewrite Ew. exact Hfw. }
        replace (i + S k)%nat with (S i + k)%nat by lia.
        split; assumption.
    + exists 0%nat, w, best. rewrite Nat.add_0_r.
      destruct (Nat.ltb_spec i 101) as [_|?]; [|lia].
      eexists _, _. split; [lia|]. split; [reflexivity|].
      split; [reflexivity|]. rewrite Ew. repeat split; reflexivity.
    + exists 0%nat, w, best. rewrite Nat.add_0_r.
      destruct (Nat.ltb_spec i 101) as [_|?]; [|lia].
      eexists _, _. split; [lia|]. split; [reflexivity|].
      split; [reflexivity|]. rewrite Ew. repeat split; reflexivity.
Qed.

End DispatcherFacts.

Lemma _get_start_index_lt (w : world) (self : oid) :
  children (heap w self) <> [] ->
  ((_get_start_index w self).2 < length (children (heap w self)))%nat.
Proof.
  intros Hne. unfold _get_start_index. cbn [snd].
  assert (0 < length (children (heap w self)))%nat as Hpos
    by (destruct (children (heap w self)); [contradiction|cbn; lia]).
  rewrite !heap_modify_eq. cbn [children last_index set_last_index].
  destruct (Nat.leb_spec (length (children (heap w self)))
                         (last_index (heap w self) + 1)) as [?|?].
  - rewrite heap_modify_eq. cbn. exact Hpos.
  - rewrite heap_modify_eq. cbn. lia.
Qed.

(** *** Bounded dispatch *)

(** C4, as stated, fails: with one disabled leaf that has no pending quota
    the dispatcher walks the ring 102 times, and the 101st walk, made after
    100 walks without success, still runs with [force] unset. *)
Lemma C4_walk_101_not_forced :
  match _start_fetcher (clock_at 1) fetch_nothing 200 0%nat 1 false
                       (one_leaf false 0) with
  | Some (_, _, rings) =>
      rings = replicate 101 false ++ [true] /\
      rings !! 100%nat = Some false /\
      ~ forced_after_100 rings
  | None => False
  end.
Proof.
  destruct (_start_fetcher _ _ _ _ _ _ _) as [[[w' out] rings]|] eqn:E;
    vm_compute in E; [|discriminate].
  injection E as _ _ <-.
  split; [reflexivity|]. split; [reflexivity|].
  intros H. specialize (H 100%nat). cbn in H.
  assert (Some false = Some true) as Habs by (apply H; lia).
  discriminate Habs.
Qed.

(** C4, amended: on a group with at least one child, [_start_fetcher] ends
    after at most 102 walks around the ring, hence within the bound of 150
    that the loop carries.  It first makes some number [k <= 101] of walks
    that find no eligible child, all with the [force] of the caller and
    each followed by a tick of the distributor; then it makes the walk that
    ends the loop, which runs with [force] set when it is the 102nd
    ([iteration] has then exceeded 100) and with the caller's [force]
    otherwise.  That last walk visits the children in ring order from the
    start index and finds one: the call hands back the first non-zero
    result of a child together with its jobs, or [(best, 0)] when no child
    gave one, unless a child's [start_fetchers] raised. *)
Theorem C4_dispatch_bounded (time_time : nat -> Qc)
    (fetch : oid -> Z -> Qc -> world -> world * outcome (pyresult * Qc))
    (fuel : nat) (self : oid) (jobs : Qc) (force : bool) (w : world) :
  children (heap w self) <> [] ->
  (length (children (heap w self)) + 103 <= fuel)%nat ->
  let ring :=
    ring_order (_get_start_index w self).2 (children (heap w self)) in
  exists k wk bestk w' out,
    (k <= 101)%nat /\
    fruitless_walks time_time fetch self jobs force ring k
                    (_get_start_index w self).1 RFalse = Some (wk, bestk) /\
    _start_fetcher time_time fetch fuel self jobs force w
      = Some (w', out,
              replicate k force ++ [if (k <? 101)%nat then force else true]) /\
    walk_ends (walk_list fetch jobs (if (k <? 101)%nat then force else true)
                         ring wk false bestk) w' out.
Proof.
  intros Hne Hfuel ring. unfold _start_fetcher. subst ring.
  pose proof (_get_start_index_lt w self Hne) as Hlt.
  destruct (_get_start_index w self) as [w1 startindex]. cbn [fst snd] in *.
  destruct (dispatch_loop_exact time_time fetch self (children (heap w self))
              startindex jobs force 101 fuel 0%nat w1 RFalse)
    as (k & wk & bestk & w' & out & Hk & Hfw & Hrun & Hend);
    [lia|lia|exact Hlt|].
  change (if (100 <? 0)%nat then true else force) with force in Hrun.
  exists k, wk, bestk, w', out.
  split; [exact Hk|]. split; [exact Hfw|]. split; [exact Hrun|exact Hend].
Qed.

Lemma C4_dispatch_bounded_witness :
  let w := one_leaf false 0 in
  let ring := ring_order (_get_start_index w 0%nat).2 (children (heap w 0%nat)) in
  exists k wk bestk w' out,
    (k <= 101)%nat /\
    fruitless_walks (clock_at 1) fetch_nothing 0%nat 1 false ring k
                    (_get_start_index w 0%nat).1 RFalse = Some (wk, bestk) /\
    _start_fetcher (clock_at 1) fetch_nothing 104 0%nat 1 false w
      = Some (w', out,
              replicate k false ++ [if (k <? 101)%nat then false else true]) /\
    walk_ends (walk_list fetch_nothing 1 (if (k <? 101)%nat then false else true)
                         ring wk false bestk) w' out.
Proof.
  apply (C4_dispatch_bounded (clock_at 1) fetch_nothing 104 0%nat 1 false
                             (one_leaf false 0)).
  - discriminate.
  - cbn. lia.
Defined.

(** Without children there is nothing to index: [children[index]] raises
    at once ([start_fetchers] never calls the dispatcher on such a group). *)
Example dispatch_on_childless_group_raises :
  match _start_fetcher (clock_at 1) fetch_nothing 5 0%nat 1 false childless with
  | Some (_, out, rings) => out = Raised IndexError /\ rings = [false]
  | None => False
  end.
Proof. vm_compute. split; reflexivity. Qed.

(** *** Debit and refund around the recursive call *)

Lemma unit_rate_truthy : Qceqb unit_rate 0 = false.
Proof. vm_compute. reflexivity. Qed.

Lemma add_pending_mhashes_pending w c q :
  mhashes_pending (heap (add_pending_mhashes w c q) c)
    = mhashes_pending (heap w c) + q.
Proof. unfold add_pending_mhashes. now rewrite heap_modify_eq. Qed.

(** C2, as stated, fails: the only child is a leaf holding exactly one unit
    of pending quota; its [start_fetchers] reports no progress ([False]);
    the dispatcher returns [(False, 0)] after one walk, and the unit that
    was debited is gone. *)
Lemma C2_debit_lost_on_False :
  let w := one_leaf true unit_rate in
  match _start_fetcher (clock_at 1) fetch_nothing 10 0%nat 1 false w with
  | Some (w', out, rings) =>
      (exists gotjobs, out = Returned (RFalse, gotjobs)) /\
      rings = [false] /\
      mhashes_pending (heap w' 1%nat)
        = mhashes_pending (heap w 1%nat) - unit_rate /\
      mhashes_pending (heap w' 1%nat) <> mhashes_pending (heap w 1%nat)
  | None => False
  end.
Proof.
  intros w.
  destruct (_start_fetcher _ _ _ _ _ _ _) as [[[w' out] rings]|] eqn:E;
    vm_compute in E; [|discriminate].
  injection E as <- <- <-.
  split; [eexists; reflexivity|]. split; [reflexivity|]. split.
  - apply Qceqb_eq. vm_compute. reflexivity.
  - apply Qceqb_neq. vm_compute. reflexivity.
Qed.

(** C2, amended: when [_start_fetcher] picks a leaf (forced, or holding at
    least one unit of pending quota) it debits one unit and calls the
    child's [start_fetchers(1, jobs)]; the unit is given back exactly when
    the call returns something other than [False] (zero is remembered as
    [best] and the walk goes on, anything else is returned at once).  When
    the call returns [False] the debit stays and the walk goes on with the
    next child; when it raises, the exception leaves the dispatcher with the
    debit in place. *)
Theorem C2_refund_iff_not_False
    (fetch : oid -> Z -> Qc -> world -> world * outcome (pyresult * Qc))
    (jobs : Qc) (force : bool) (w : world) (worksource : oid)
    (found : bool) (best : pyresult) :
  keeps_pending fetch ->
  is_group (heap w worksource) = false ->
  force = true \/ unit_rate <= mhashes_pending (heap w worksource) ->
  let before := mhashes_pending (heap w worksource) in
  match (fetch worksource 1%Z jobs
               (add_pending_mhashes w worksource (- unit_rate))).2 with
  | Returned (RInt n, gotjobs) =>
      exists w',
        visit_child fetch jobs force w worksource found best
          = (if (n =? 0)%Z then Walked w' true (RInt n)
             else WalkReturn w' (RInt n) gotjobs) /\
        mhashes_pending (heap w' worksource) = before
  | Returned (RFalse, _) =>
      exists w',
        visit_child fetch jobs force w worksource found best
          = Walked w' true best /\
        mhashes_pending (heap w' worksource) = before - unit_rate
  | Raised e =>
      exists w',
        visit_child fetch jobs force w worksource found best
          = WalkRaise w' e /\
        mhashes_pending (heap w' worksource) = before - unit_rate
  end.
Proof.
  intros Hkeep Hleaf Hel before.
  assert (force || Qcleb unit_rate (mhashes_pending (heap w worksource)) = true)
    as Hel'.
  { destruct Hel as [->|Hle]; [reflexivity|].
    apply Qcleb_le in Hle. rewrite Hle. apply orb_true_r. }
  unfold visit_child. rewrite Hleaf. cbn [negb].
  rewrite Hel', unit_rate_truthy. cbn [negb].
  pose proof (Hkeep worksource 1%Z jobs
                (add_pending_mhashes w worksource (- unit_rate))) as Hp.
  rewrite add_pending_mhashes_pending in Hp.
  destruct (fetch worksource 1%Z jobs
              (add_pending_mhashes w worksource (- unit_rate)))
    as [w1 [[[|n] gotjobs]|e]]; cbn [fst snd] in *.
  - eexists. split; [reflexivity|]. rewrite Hp. unfold before. ring.
  - cbn [is_not_False truthy].
    eexists. split.
    + destruct (n =? 0)%Z; reflexivity.
    + rewrite add_pending_mhashes_pending, Hp. unfold before. ring.
  - eexists. split; [reflexivity|]. rewrite Hp. unfold before. ring.
Qed.

Lemma C2_refund_iff_not_False_witness :
  let w := one_leaf true unit_rate in
  exists w',
    visit_child fetch_nothing 1 false w 1%nat false RFalse
      = Walked w' true RFalse /\
    mhashes_pending (heap w' 1%nat)
      = mhashes_pending (heap w 1%nat) - unit_rate.
Proof.
  apply (C2_refund_iff_not_False fetch_nothing 1 false
           (one_leaf true unit_rate) 1%nat false RFalse).
  - intros c n j x. reflexivity.
  - reflexivity.
  - right. vm_compute. discriminate.
Defined.

(** *** Failing fast *)

(** C5: [start_fetchers] on a group that is not started, or disabled, or
    without children, or asked for [count = 0] fetchers, returns
    [(False, 0)] at once: the world is handed back as it was received (no
    quota counter has moved), whatever the children would have answered. *)
Theorem C5_start_fetchers_fails_fast (time_time : nat -> Qc)
    (fetch : oid -> Z -> Qc -> world -> world * outcome (pyresult * Qc))
    (fuel : nat) (self : oid) (count : Z) (jobs : Qc) (w : world) :
  started (heap w self) = false \/
  enabled (heap w self) = false \/
  children (heap w self) = [] \/
  count = 0%Z ->
  start_fetchers time_time fetch fuel self count jobs w
    = Some (w, Returned (RFalse, 0)).
Proof.
  intros H. unfold start_fetchers.
  destruct H as [-> | [-> | [-> | ->]]]; cbn;
    rewrite ?orb_true_r; reflexivity.
Qed.

Lemma C5_start_fetchers_fails_fast_witness :
  start_fetchers (clock_at 1) fetch_nothing 0 0%nat 0%Z 1 two_leaves
    = Some (two_leaves, Returned (RFalse, 0)).
Proof.
  apply (C5_start_fetchers_fails_fast (clock_at 1) fetch_nothing 0 0%nat
                                      0%Z 1 two_leaves).
  right. right. right. reflexivity.
Defined.

(** ** Tree membership *)

Lemma meets_worksource_ancestor (w : world) (worksource : oid) (n : nat) :
  forall fuel x,
    nth_ancestor w x n = Some worksource ->
    (n < fuel)%nat ->
    meets_worksource fuel w (Some x) worksource = Some true.
Proof.
  induction n as [|n IH]; intros fuel x Hanc Hfuel;
    (destruct fuel as [|fuel]; [lia|]); cbn [meets_worksource].
  - cbn in Hanc. injection Hanc as ->. now rewrite Nat.eqb_refl.
  - destruct (Nat.eqb x worksource); [reflexivity|].
    cbn [nth_ancestor] in Hanc.
    destruct (get_parent w x) as [p|]; [|discriminate].
    apply IH; [exact Hanc|lia].
Qed.

(** C3: adding to a group [self] a work source that is [self] or one of its
    ancestors along the parent links (so that [self] is the work source or
    one of its descendants) raises the cycle error, and the world is handed
    back as it was: no list of children and no parent link has changed. *)
Theorem C3_add_into_own_subtree_raises
    (child_start child_stop : oid -> world -> world * outcome unit)
    (fuel : nat) (w : world) (self worksource : oid) (n : nat) :
  nth_ancestor w self n = Some worksource ->
  (n < fuel)%nat ->
  add_work_source child_start child_stop fuel w self worksource
    = Some (w, Raised CycleError).
Proof.
  intros Hanc Hfuel. unfold add_work_source.
  now rewrite (meets_worksource_ancestor w worksource n fuel self Hanc Hfuel).
Qed.

Lemma C3_add_into_own_subtree_raises_witness :
  nth_ancestor chain 2%nat 2 = Some 0%nat /\
  add_work_source call_ok call_ok 3 chain 2%nat 0%nat
    = Some (chain, Raised CycleError).
Proof.
  split; [reflexivity|].
  apply (C3_add_into_own_subtree_raises call_ok call_ok 3 chain 2%nat 0%nat 2).
  - reflexivity.
  - lia.
Defined.

(** The same call goes through when no cycle would arise: the orphan leaf
    [2] becomes the second child of the root. *)
Example add_orphan_succeeds :
  match add_work_source call_ok call_ok 5 with_orphan 0%nat 2%nat with
  | Some (w', Returned _) =>
      children (heap w' 0%nat) = [1%nat; 2%nat] /\
      parent (heap w' 2%nat) = Some 0%nat
  | _ => False
  end.
Proof. vm_compute. split; reflexivity. Qed.

(** ** Lifecycle cascade *)

Lemma cascade_exact (call : oid -> world -> world * outcome unit)
    (self : oid) (l : list oid) :
  keeps_children self call ->
  forall k i fuel w log,
    children (heap w self) = l ->
    (i + k = length l)%nat ->
    (k < fuel)%nat ->
    cascade call fuel self i w log
      = Some ((cascade_list call (drop i l) w).1,
              log ++ (cascade_list call (drop i l) w).2).
Proof.
  intros Hkeep. induction k as [|k IH]; intros i fuel w log Hl Hi Hfuel;
    (destruct fuel as [|fuel]; [lia|]); cbn [cascade]; rewrite Hl.
  - rewrite lookup_ge_None_2 by lia. rewrite drop_ge by lia.
    cbn. now rewrite app_nil_r.
  - destruct (lookup_lt_is_Some_2 l i ltac:(lia)) as [c Hc]. rewrite Hc.
    rewrite (drop_S l c i Hc). cbn [cascade_list].
    pose proof (Hkeep c w) as Hk.
    destruct (call c w) as [w1 r]. cbn [fst] in Hk.
    rewrite (IH (S i) fuel w1) by (try congruence; lia).
    destruct (cascade_list call (drop (S i) l) w1) as [w2 log2].
    cbn [fst snd]. now rewrite <- app_assoc.
Qed.

Lemma cascade_list_targets (call : oid -> world -> world * outcome unit)
    (l : list oid) :
  forall w, call_target <$> (cascade_list call l w).2 = Some <$> l.
Proof.
  induction l as [|c l IH]; intros w; [reflexivity|]. cbn [cascade_list].
  destruct (call c w) as [w1 r]. specialize (IH w1).
  destruct (cascade_list call l w1) as [w2 log]. cbn in *. now rewrite IH.
Qed.

(** C9, as stated, fails: the loops of [_start] and [_stop] iterate the list
    of children itself, not a copy.  Here the [start()] of the first child
    takes that child out of the list and raises; the exception is caught,
    but the cascade then ends without calling [start()] on the second
    child, which still is a child of the group. *)
Lemma C9_detaching_child_hides_sibling :
  match _start call_ok call_detaching 5 two_leaves 0%nat with
  | Some (w', out, log) =>
      children (heap two_leaves 0%nat) = [1%nat; 2%nat] /\
      out = Returned tt /\
      log = [OwnHook; ChildCall 1%nat true] /\
      children (heap w' 0%nat) = [2%nat] /\
      (Some 2%nat ∉ call_target <$> log)
  | None => False
  end.
Proof.
  destruct (_start _ _ _ _ _) as [[[w' out] log]|] eqn:E;
    vm_compute in E; [|discriminate].
  injection E as <- <- <-.
  repeat split.
  intros H. apply elem_of_cons in H as [H|H]; [discriminate|].
  apply elem_of_cons in H as [H|H]; [discriminate|].
  apply elem_of_nil in H. exact H.
Qed.

(** C9, amended: on a group whose children's [start] and [stop] leave its
    list of children as it is, the start cascade runs the hook of the base
    class first and then, the hook having returned, calls [start] on every
    child of the list in order, each in the world its predecessors left;
    the stop cascade calls [stop] on every child in order and then runs the
    hook of the base class, whose outcome is the outcome of [_stop].  A
    child whose [start] or [stop] raises is logged as such and the cascade
    goes on with the next child. *)
Theorem C9_cascades_reach_every_child
    (base_start base_stop child_start child_stop
       : oid -> world -> world * outcome unit)
    (fuel : nat) (w : world) (self : oid) :
  keeps_children self child_start ->
  keeps_children self child_stop ->
  (length (children (heap (base_start self w).1 self)) < fuel)%nat ->
  (length (children (heap w self)) < fuel)%nat ->
  _start base_start child_start fuel w self
    = (let '(w1, r) := base_start self w in
       match r with
       | Raised e => Some (w1, Raised e, [OwnHook])
       | Returned _ =>
           let '(w2, calls) :=
             cascade_list child_start (children (heap w1 self)) w1 in
           Some (w2, Returned tt, OwnHook :: calls)
       end) /\
  _stop base_stop child_stop fuel w self
    = (let '(w1, calls) :=
         cascade_list child_stop (children (heap w self)) w in
       let '(w2, r) := base_stop self w1 in
       Some (w2, r, calls ++ [OwnHook])) /\
  (forall call l x, call_target <$> (cascade_list call l x).2 = Some <$> l).
Proof.
  intros Hstart Hstop Hf1 Hf2. split; [|split].
  - unfold _start. destruct (base_start self w) as [w1 [[]|e]];
      cbn [fst snd] in *; [|reflexivity].
    rewrite (cascade_exact child_start self (children (heap w1 self)) Hstart
               (length (children (heap w1 self))) 0%nat fuel w1 [OwnHook])
      by (try reflexivity; lia).
    rewrite drop_0.
    now destruct (cascade_list child_start (children (heap w1 self)) w1).
  - unfold _stop.
    rewrite (cascade_exact child_stop self (children (heap w self)) Hstop
               (length (children (heap w self))) 0%nat fuel w [])
      by (try reflexivity; lia).
    rewrite drop_0.
    now destruct (cascade_list child_stop (children (heap w self)) w).
  - intros call l x. apply cascade_list_targets.
Qed.

Lemma C9_cascades_reach_every_child_witness :
  _start call_ok (call_raising_on 1%nat) 3 two_leaves 0%nat
    = Some (two_leaves, Returned tt,
            [OwnHook; ChildCall 1%nat true; ChildCall 2%nat false]) /\
  _stop call_ok (call_raising_on 1%nat) 3 two_leaves 0%nat
    = Some (two_leaves, Returned tt,
            [ChildCall 1%nat true; ChildCall 2%nat false; OwnHook]).
Proof.
  destruct (C9_cascades_reach_every_child call_ok call_ok
              (call_raising_on 1%nat) (call_raising_on 1%nat) 3 two_leaves
              0%nat) as (Hs & Hp & _).
  - intros c x. reflexivity.
  - intros c x. reflexivity.
  - cbn. lia.
  - cbn. lia.
  - split; [exact Hs|exact Hp].
Defined.

(** ** Settings *)



(** ** More on tree membership *)

Lemma mem_spec (x : oid) (l : list oid) : mem x l = true <-> x ∈ l.
Proof.
  induction l as [|y l IH]; cbn.
  - split; [discriminate|]. intros H. inversion H.
  - rewrite orb_true_iff, IH, elem_of_cons, Nat.eqb_eq.
    split; (intros [?|?]; [left; congruence|right; assumption]).
Qed.

Lemma without_not_mem (x : oid) (l : list oid) :
  mem x l = false -> without x l = l.
Proof.
  unfold without. induction l as [|y l IH]; cbn [mem]; intros H; [reflexivity|].
  apply orb_false_iff in H as [Hy Hl]. apply Nat.eqb_neq in Hy.
  rewrite filter_cons_True by assumption. now rewrite IH.
Qed.


Lemma list_remove_mem (x : oid) (l : list oid) :
  mem x l = true ->
  exists l', list_remove x l = Some l' /\
             without x l' = without x l /\
             length l = S (length l').
Proof.
  unfold without. induction l as [|y l IH]; cbn [mem list_remove]; intros H;
    [discriminate|].
  destruct (Nat.eqb_spec y x) as [->|Hne].
  - exists l. split; [reflexivity|]. split; [|reflexivity].
    now rewrite filter_cons_False by auto.
  - cbn in H. destruct (IH H) as (l' & -> & Hf & Hlen).
    exists (y :: l'). split; [reflexivity|]. split.
    + rewrite !filter_cons_True by assumption. now rewrite Hf.
    + cbn. now rewrite Hlen.
Qed.

Lemma set_parent_children w x p y :
  children (heap (set_parent w x p) y) = children (heap w y).
Proof.
  unfold set_parent. destruct (Nat.eq_dec y x) as [->|Hne].
  - now rewrite heap_modify_eq.
  - now rewrite heap_modify_ne.
Qed.

Lemma set_parent_parent_eq w x p : parent (heap (set_parent w x p) x) = p.
Proof. unfold set_parent. now rewrite heap_modify_eq. Qed.

Lemma set_parent_parent_ne w x p y :
  y <> x -> parent (heap (set_parent w x p) y) = parent (heap w y).
Proof. intros H. unfold set_parent. now rewrite heap_modify_ne. Qed.

Lemma set_children_children_eq w x l :
  children (heap (modify w x (set_children l)) x) = l.
Proof. now rewrite heap_modify_eq. Qed.

Lemma modify_children_ne w x f y :
  y <> x -> children (heap (modify w x f) y) = children (heap w y).
Proof. intros H. now rewrite heap_modify_ne. Qed.

Lemma modify_children_parent w x f y :
  (forall o, parent (f o) = parent o) ->
  parent (heap (modify w x f) y) = parent (heap w y).
Proof.
  intros Hf. destruct (Nat.eq_dec y x) as [->|Hne].
  - now rewrite heap_modify_eq.
  - now rewrite heap_modify_ne.
Qed.

(** The world after [set_parent()] and the guarded [stop()] (or [start()])
    of one loop turn: same lists of children, same parent links. *)
Lemma guarded_call_links (call : oid -> world -> world * outcome unit)
    (b : bool) (c : oid) (w : world) :
  keeps_links call ->
  forall x,
    children (heap (if b then (call c w).1 else w) x) = children (heap w x) /\
    parent (heap (if b then (call c w).1 else w) x) = parent (heap w x).
Proof.
  intros Hk x. destruct b; [apply Hk|split; reflexivity].
Qed.

Lemma remove_work_source_spec
    (child_stop : oid -> world -> world * outcome unit)
    (self worksource : oid) :
  keeps_links child_stop ->
  forall fuel w w1 out,
    remove_work_source child_stop fuel w self worksource = Some (w1, out) ->
    out = Returned tt /\
    children (heap w1 self) = without worksource (children (heap w self)) /\
    (forall x, x <> self -> children (heap w1 x) = children (heap w x)) /\
    (forall x, x <> worksource -> parent (heap w1 x) = parent (heap w x)) /\
    parent (heap w1 worksource)
      = (if mem worksource (children (heap w self)) then None
         else parent (heap w worksource)).
Proof.
  intros Hk. induction fuel as [|fuel IH]; intros w w1 out Hrun;
    [discriminate|]. cbn [remove_work_source] in Hrun.
  destruct (mem worksource (children (heap w self))) eqn:Hm.
  - set (w2 := set_parent w worksource None) in Hrun.
    pose proof (guarded_call_links child_stop (started (heap w2 self))
                  worksource w2 Hk) as Hg.
    set (w3 := if started (heap w2 self)
               then (child_stop worksource w2).1 else w2) in *.
    assert (forall x, children (heap w3 x) = children (heap w x)) as Hc3.
    { intros x. destruct (Hg x) as [-> _]. apply set_parent_children. }
    rewrite Hc3 in Hrun.
    destruct (list_remove_mem worksource _ Hm) as (l' & Hl' & Hf & _).
    rewrite Hl' in Hrun.
    destruct (IH _ _ _ Hrun) as (Ho & Hcs & Hcx & Hpx & Hpw).
    rewrite set_children_children_eq in Hcs.
    split; [exact Ho|]. split; [now rewrite Hcs|]. split; [|split].
    + intros x Hx. rewrite Hcx by assumption.
      rewrite modify_children_ne by assumption. apply Hc3.
    + intros x Hx. rewrite Hpx by assumption.
      rewrite modify_children_parent by reflexivity.
      destruct (Hg x) as [_ ->]. now apply set_parent_parent_ne.
    + rewrite Hpw, set_children_children_eq.
      destruct (mem worksource l'); [reflexivity|].
      rewrite modify_children_parent by reflexivity.
      destruct (Hg worksource) as [_ ->]. unfold w2.
      apply set_parent_parent_eq.
  - injection Hrun as <- <-. split; [reflexivity|].
    split; [now rewrite without_not_mem|]. repeat split; reflexivity.
Qed.

Lemma remove_work_source_returns
    (child_stop : oid -> world -> world * outcome unit)
    (self worksource : oid) :
  keeps_links child_stop ->
  forall fuel w,
    (length (children (heap w self)) < fuel)%nat ->
    exists w1 out,
      remove_work_source child_stop fuel w self worksource = Some (w1, out).
Proof.
  intros Hk. induction fuel as [|fuel IH]; intros w Hfuel; [lia|].
  cbn [remove_work_source].
  destruct (mem worksource (children (heap w self))) eqn:Hm;
    [|eexists _, _; reflexivity].
  set (w2 := set_parent w worksource None).
  pose proof (guarded_call_links child_stop (started (heap w2 self))
                worksource w2 Hk) as Hg.
  set (w3 := if started (heap w2 self)
             then (child_stop worksource w2).1 else w2) in *.
  assert (children (heap w3 self) = children (heap w self)) as Hc3.
  { destruct (Hg self) as [-> _]. apply set_parent_children. }
  rewrite Hc3.
  destruct (list_remove_mem worksource _ Hm) as (l' & -> & _ & Hlen).
  apply IH. rewrite set_children_children_eq. lia.
Qed.

Lemma meets_worksource_true_inv (w : world) (worksource : oid) :
  forall fuel x,
    meets_worksource fuel w (Some x) worksource = Some true ->
    exists n, (n < fuel)%nat /\ nth_ancestor w x n = Some worksource.
Proof.
  induction fuel as [|fuel IH]; intros x H; [discriminate|].
  cbn [meets_worksource] in H.
  destruct (Nat.eqb_spec x worksource) as [Heq|Hne].
  - exists 0%nat. split; [lia|]. cbn. now rewrite Heq.
  - destruct (get_parent w x) as [p|] eqn:Hp.
    + destruct (IH p H) as (n & Hn & Hanc).
      exists (S n). split; [lia|]. cbn. now rewrite Hp.
    + destruct fuel; discriminate H.
Qed.


Lemma meets_worksource_false (w : world) (worksource : oid) (n : nat) :
  forall fuel x,
    not_above w worksource x ->
    nth_ancestor w x n = None ->
    (n < fuel)%nat ->
    meets_worksource fuel w (Some x) worksource = Some false.
Proof.
  induction n as [|n IH]; intros fuel x Hna Hend Hfuel; [discriminate|].
  destruct fuel as [|fuel]; [lia|]. cbn [meets_worksource].
  destruct (Nat.eqb_spec x worksource) as [Heq|Hne].
  - exfalso. apply (Hna 0%nat). cbn. now rewrite Heq.
  - cbn [nth_ancestor] in Hend.
    destruct (get_parent w x) as [p|] eqn:Hp.
    + apply IH; [|exact Hend|lia].
      intros m Hm. apply (Hna (S m)). cbn. now rewrite Hp.
    + destruct fuel as [|fuel]; [lia|]. reflexivity.
Qed.



(** X1: [remove_work_source] returns once every occurrence of the work source is
    gone from the list of the group, with the other entries in their order;
    a work source that was listed has lost its parent, one that was not
    listed leaves the world as it is (no [ValueError]); no other list and no
    other parent link changes. *)
Theorem remove_work_source_drops_child
    (child_stop : oid -> world -> world * outcome unit)
    (fuel : nat) (w : world) (self worksource : oid) :
  keeps_links child_stop ->
  (length (children (heap w self)) < fuel)%nat ->
  exists w1,
    remove_work_source child_stop fuel w self worksource
      = Some (w1, Returned tt) /\
    children (heap w1 self) = without worksource (children (heap w self)) /\
    (worksource ∉ children (heap w1 self)) /\
    (worksource ∈ children (heap w self) ->
       parent (heap w1 worksource) = None) /\
    (worksource ∉ children (heap w self) -> w1 = w) /\
    (forall x, x <> self -> children (heap w1 x) = children (heap w x)) /\
    (forall x, x <> worksource -> parent (heap w1 x) = parent (heap w x)).
Proof.
  intros Hk Hfuel.
  destruct (remove_work_source_returns child_stop self worksource Hk fuel w
              Hfuel) as (w1 & out & Er).
  destruct (remove_work_source_spec child_stop self worksource Hk _ _ _ _ Er)
    as (-> & Hcs & Hcx & Hpx & Hpw).
  exists w1. split; [exact Er|]. split; [exact Hcs|]. split; [|split; [|split]].
  - rewrite Hcs. unfold without. rewrite list_elem_of_filter. tauto.
  - intros Hin. apply mem_spec in Hin. now rewrite Hin in Hpw.
  - intros Hnin. destruct fuel as [|fuel]; [lia|].
    cbn [remove_work_source] in Er.
    destruct (mem worksource (children (heap w self))) eqn:Hm.
    + apply mem_spec in Hm. contradiction.
    + now injection Er as <-.
  - split; assumption.
Qed.

Lemma remove_work_source_drops_child_witness :
  exists w1,
    remove_work_source (call_raising_on 1%nat) 3 two_leaves 0%nat 1%nat
      = Some (w1, Returned tt) /\
    children (heap w1 0%nat) = [2%nat] /\
    parent (heap w1 1%nat) = None.
Proof.
  destruct (remove_work_source_drops_child (call_raising_on 1%nat) 3
              two_leaves 0%nat 1%nat) as (w1 & Hrun & Hc & _ & Hp & _).
  - intros c x y. split; reflexivity.
  - cbn. lia.
  - exists w1. split; [exact Hrun|]. split; [exact Hc|].
    apply Hp. apply (bool_decide_unpack _). vm_compute. exact I.
Defined.

(** X2: [add_work_source] on a work source without parent that the group does
    not list yet, the [start()] of the work source leaving the lists of
    children and the parent links alone: the call returns, the work source
    is appended to the list of the group and gets the group as parent, and
    nothing else is relinked.  This holds whether [start()] returns or
    raises; no assumption is made on [stop()], which is not called. *)
Theorem add_work_source_adopts_orphan
    (child_start child_stop : oid -> world -> world * outcome unit)
    (fuel : nat) (w : world) (self worksource : oid) (n : nat) :
  keeps_links child_start ->
  not_above w worksource self ->
  nth_ancestor w self n = None ->
  (n < fuel)%nat ->
  parent (heap w worksource) = None ->
  worksource ∉ children (heap w self) ->
  exists w',
    add_work_source child_start child_stop fuel w self worksource
      = Some (w', Returned tt) /\
    children (heap w' self) = children (heap w self) ++ [worksource] /\
    parent (heap w' worksource) = Some self /\
    (forall x, x <> self -> children (heap w' x) = children (heap w x)) /\
    (forall x, x <> worksource -> parent (heap w' x) = parent (heap w x)).
Proof.
  intros Hstart Hna Hend Hfuel Hp Hnin. unfold add_work_source.
  rewrite (meets_worksource_false w worksource n fuel self Hna Hend Hfuel).
  unfold get_parent. rewrite Hp.
  set (w2 := set_parent w worksource (Some self)).
  assert (forall x, children (heap w2 x) = children (heap w x)) as Hc2
    by (intros x; apply set_parent_children).
  rewrite Hc2.
  destruct (mem worksource (children (heap w self))) eqn:Hm;
    [apply mem_spec in Hm; contradiction|]. cbn [negb].
  pose proof (guarded_call_links child_start (started (heap w2 self))
                worksource w2 Hstart) as Hg.
  set (w3 := if started (heap w2 self)
             then (child_start worksource w2).1 else w2) in *.
  eexists. split; [reflexivity|]. split; [|split; [|split]].
  - rewrite heap_modify_eq. cbn [children set_children].
    destruct (Hg self) as [-> _]. now rewrite Hc2.
  - rewrite modify_children_parent by reflexivity.
    destruct (Hg worksource) as [_ ->]. apply set_parent_parent_eq.
  - intros x Hx. rewrite modify_children_ne by assumption.
    destruct (Hg x) as [-> _]. apply Hc2.
  - intros x Hx. rewrite modify_children_parent by reflexivity.
    destruct (Hg x) as [_ ->]. unfold w2.
    now apply set_parent_parent_ne.
Qed.

Lemma add_work_source_adopts_orphan_witness :
  exists w',
    add_work_source (call_raising_on 2%nat) call_detaching 2 adopting 0%nat
                    2%nat
      = Some (w', Returned tt) /\
    children (heap w' 0%nat) = [1%nat; 2%nat] /\
    parent (heap w' 2%nat) = Some 0%nat.
Proof.
  destruct (add_work_source_adopts_orphan (call_raising_on 2%nat)
              call_detaching 2 adopting 0%nat 2%nat 1)
    as (w' & Hrun & Hc & Hp & _).
  - intros c x y. split; reflexivity.
  - intros [|[|m]]; cbn; discriminate.
  - reflexivity.
  - lia.
  - reflexivity.
  - apply (bool_decide_unpack _). vm_compute. exact I.
  - exists w'. split; [exact Hrun|]. split; [exact Hc|exact Hp].
Defined.





Lemma remove_work_source_raises
    (child_stop : oid -> world -> world * outcome unit)
    (self worksource : oid) :
  forall fuel w w1 e,
    remove_work_source child_stop fuel w self worksource = Some (w1, Raised e) ->
    e = ValueError.
Proof.
  induction fuel as [|fuel IH]; intros w w1 e Hrun; [discriminate|].
  cbn [remove_work_source] in Hrun.
  destruct (mem worksource (children (heap w self))); [|discriminate].
  destruct (list_remove worksource _) as [l|].
  - exact (IH _ _ _ Hrun).
  - now injection Hrun as _ <-.
Qed.


(** X5: [add_work_source] never lets an exception of a child's [start()] or
    [stop()] out.  It can raise two things only: the cycle error, and then
    the work source really is the group or one of its ancestors and the
    world is untouched; or the [ValueError] of [list.remove], which needs a
    [stop()] that alters a list of children or a parent link while the
    work source is being removed from its old parent. *)
Theorem add_work_source_raises_only_on_cycle
    (child_start child_stop : oid -> world -> world * outcome unit)
    (fuel : nat) (w : world) (self worksource : oid) :
  match add_work_source child_start child_stop fuel w self worksource with
  | Some (w', Raised e) =>
      (e = CycleError /\ w' = w /\
       exists n, nth_ancestor w self n = Some worksource) \/
      (e = ValueError /\ ~ keeps_links child_stop)
  | _ => True
  end.
Proof.
  destruct (add_work_source _ _ _ _ _ _) as [[w' [[]|e]]|] eqn:Hrun; auto.
  unfold add_work_source in Hrun.
  destruct (meets_worksource fuel w (Some self) worksource) as [[|]|] eqn:Hm;
    [| |discriminate].
  - left. injection Hrun as <- <-. split; [reflexivity|]. split; [reflexivity|].
    destruct (meets_worksource_true_inv w worksource fuel self Hm)
      as (n & _ & Hn). now exists n.
  - right. unfold get_parent in Hrun.
    destruct (parent (heap w worksource)) as [p|].
    + destruct (remove_work_source child_stop fuel w p worksource)
        as [[w1 out]|] eqn:Er; [|discriminate].
      destruct out as [[]|e1].
      * destruct (negb _); discriminate.
      * injection Hrun as _ <-.
        pose proof (remove_work_source_raises child_stop p worksource _ _ _ _
                      Er) as ->.
        split; [reflexivity|]. intros Hk.
        destruct (remove_work_source_spec child_stop p worksource Hk _ _ _ _
                    Er) as (Ho & _). discriminate.
    + destruct (negb _); discriminate.
Qed.











(** ** More on the quota distributor *)

Lemma differ_in_quota_only_refl o : differ_in_quota_only o o.
Proof. destruct o. reflexivity. Qed.

Lemma differ_in_quota_only_trans o1 o2 o3 :
  differ_in_quota_only o1 o2 -> differ_in_quota_only o2 o3 ->
  differ_in_quota_only o1 o3.
Proof.
  unfold differ_in_quota_only. intros H12 H23. rewrite H23 at 1.
  rewrite H12 at 1. reflexivity.
Qed.

Lemma first_pass_step_frame ts w r tp c x :
  differ_in_quota_only (heap w x) (heap (first_pass_step ts (w, r, tp) c).1.1 x) /\
  clock_reads (first_pass_step ts (w, r, tp) c).1.1 = clock_reads w.
Proof.
  unfold first_pass_step. destruct (enabled (heap w c)); cbn [fst].
  - split; [|reflexivity].
    destruct (Nat.eq_dec x c) as [->|Hne].
    + rewrite !heap_modify_eq. reflexivity.
    + rewrite !heap_modify_ne by assumption. apply differ_in_quota_only_refl.
  - split; [apply differ_in_quota_only_refl|reflexivity].
Qed.

Lemma first_pass_frame ts l : forall w r tp x,
  differ_in_quota_only (heap w x) (heap (first_pass ts l (w, r, tp)).1.1 x) /\
  clock_reads (first_pass ts l (w, r, tp)).1.1 = clock_reads w.
Proof.
  induction l as [|c l IH]; intros w r tp x.
  - split; [apply differ_in_quota_only_refl|reflexivity].
  - rewrite first_pass_cons.
    pose proof (first_pass_step_frame ts w r tp c x) as [Hs Hc].
    destruct (first_pass_step ts (w, r, tp) c) as [[w1 r1] tp1].
    cbn [fst] in Hs, Hc. destruct (IH w1 r1 tp1 x) as [Hs' Hc'].
    split; [eapply differ_in_quota_only_trans; eassumption|congruence].
Qed.

Lemma second_pass_step_frame u w r c x :
  differ_in_quota_only (heap w x) (heap (second_pass_step u (w, r) c).1 x) /\
  clock_reads (second_pass_step u (w, r) c).1 = clock_reads w.
Proof.
  unfold second_pass_step. destruct (enabled (heap w c)); cbn [fst].
  - split; [|reflexivity].
    destruct (Nat.eq_dec x c) as [->|Hne].
    + rewrite !heap_modify_eq. reflexivity.
    + rewrite !heap_modify_ne by assumption. apply differ_in_quota_only_refl.
  - split; [apply differ_in_quota_only_refl|reflexivity].
Qed.

Lemma second_pass_frame u l : forall w r x,
  differ_in_quota_only (heap w x) (heap (second_pass u l (w, r)).1 x) /\
  clock_reads (second_pass u l (w, r)).1 = clock_reads w.
Proof.
  induction l as [|c l IH]; intros w r x.
  - split; [apply differ_in_quota_only_refl|reflexivity].
  - rewrite second_pass_cons.
    pose proof (second_pass_step_frame u w r c x) as [Hs Hc].
    destruct (second_pass_step u (w, r) c) as [w1 r1].
    cbn [fst] in Hs, Hc. destruct (IH w1 r1 x) as [Hs' Hc'].
    split; [eapply differ_in_quota_only_trans; eassumption|congruence].
Qed.

Lemma differ_in_quota_only_last_time o o' :
  differ_in_quota_only o o' -> last_time o' = last_time o.
Proof. intros ->. reflexivity. Qed.

Lemma total_pointwise (f g : oid -> Qc) (l : list oid) :
  (forall c, c ∈ l -> f c = g c) -> total f l = total g l.
Proof.
  induction l as [|c l IH]; intros H; cbn; [reflexivity|].
  rewrite (H c) by left. rewrite IH; [reflexivity|].
  intros x Hx. apply H. now right.
Qed.

Lemma sum_enabled_total w f l :
  sum_enabled w f l
    = total (fun c => if enabled (heap w c) then f (heap w c) else 0) l.
Proof. induction l as [|c l IH]; cbn; [reflexivity|]. now rewrite IH. Qed.

Lemma sum_enabled_plus w f g l :
  sum_enabled w (fun o => f o + g o) l = sum_enabled w f l + sum_enabled w g l.
Proof.
  induction l as [|c l IH]; cbn; [ring|].
  rewrite IH. destruct (enabled (heap w c)); ring.
Qed.

(** The second loop of a tick, read through [tick_unit]. *)
Lemma distribute_tick_second time_time w self :
  let t := distribute_tick time_time w self in
  (tick_world t, tick_left t)
    = second_pass (tick_unit t) (children (heap w self))
                  (tick_after_first t, tick_remainder t)
  \/ (tick_unit t = 0 /\ tick_world t = tick_after_first t /\
      tick_left t = tick_remainder t).
Proof.
  intros t. unfold tick_unit.
  destruct (distribute_tick_world time_time w self)
    as [(Hw & Hl & Hf) | (Hr & Htp & Hw)]; fold t in Hw, Hf || fold t in Hw.
  - right. fold t in Hl. rewrite Hf. repeat split; assumption.
  - left. fold t in Hr, Htp. apply Qcltb_lt in Hr, Htp. rewrite Hr, Htp.
    exact Hw.
Qed.

(** What a tick does to the pending quota of a child listed once. *)
Lemma distribute_pending time_time w self c :
  NoDup (children (heap w self)) ->
  c ∈ children (heap w self) ->
  let t := distribute_tick time_time w self in
  mhashes_pending (heap (tick_world t) c)
    = mhashes_pending (heap w c)
      + (if enabled (heap w c)
         then tick_timestep t * hashrate (heap w c)
              + mhashes_deferred (heap w c) * tenth
              + tick_unit t * priority (heap w c)
         else 0).
Proof.
  intros Hnd Hin t.
  destruct (distribute_tick_unfold time_time w self)
    as (Hs0 & Hq0 & Hts & _ & Haf & _).
  fold t in Hts, Haf.
  assert (same_settings w (tick_after_first t)) as Hs1.
  { rewrite Haf. eapply same_settings_trans; [exact Hs0|].
    apply first_pass_totals. }
  assert (mhashes_pending (heap (tick_after_first t) c)
          = mhashes_pending (heap w c)
            + (if enabled (heap w c)
               then tick_timestep t * hashrate (heap w c)
                    + mhashes_deferred (heap w c) * tenth
               else 0)) as Hfirst.
  { rewrite Haf, Hts. destruct (enabled (heap w c)) eqn:Hen.
    - match goal with
      | |- context [first_pass ?ts ?l (?w0, ?r, ?tp)] =>
          destruct (first_pass_child ts l w0 r tp c Hnd Hin) as (-> & _);
          [ destruct (Hs0 c) as (-> & _); exact Hen | ]
      end.
      destruct (Hs0 c) as (_ & _ & -> & _). destruct (Hq0 c) as (-> & ->).
      reflexivity.
    - rewrite first_pass_untouched
        by (right; destruct (Hs0 c) as (-> & _); exact Hen).
      destruct (Hq0 c) as (-> & _). ring. }
  destruct (distribute_tick_second time_time w self)
    as [Hw | (Hu & Hw & _)]; fold t in Hw; try fold t in Hu.
  - apply (f_equal fst) in Hw. cbn [fst] in Hw. rewrite Hw.
    destruct (enabled (heap w c)) eqn:Hen.
    + rewrite second_pass_child; try assumption.
      * rewrite Hfirst. destruct (Hs1 c) as (_ & -> & _). ring.
      * destruct (Hs1 c) as (-> & _). exact Hen.
    + rewrite second_pass_untouched
        by (right; destruct (Hs1 c) as (-> & _); exact Hen).
      exact Hfirst.
  - rewrite Hw, Hfirst, Hu. destruct (enabled (heap w c)); ring.
Qed.

(** X10: Quota is conserved by a tick: what the children (each listed once) gain
    in pending quota is what left the pool plus the tenth of the deferred
    quota of the enabled children. *)
Theorem distribute_conserves_quota (time_time : nat -> Qc) (w : world)
    (self : oid) :
  NoDup (children (heap w self)) ->
  let t := distribute_tick time_time w self in
  total (fun c => mhashes_pending (heap (tick_world t) c)
                  - mhashes_pending (heap w c))
        (children (heap w self))
    = tick_pool t - tick_left t
      + tenth * sum_enabled w mhashes_deferred (children (heap w self)).
Proof.
  intros Hnd t.
  transitivity
    (sum_enabled w (fun o => tick_timestep t * hashrate o
                             + (tenth * mhashes_deferred o
                                + tick_unit t * priority o))
                 (children (heap w self))).
  { rewrite sum_enabled_total. apply total_pointwise.
    intros c Hin. unfold t. rewrite distribute_pending by assumption.
    fold t. destruct (enabled (heap w c)); ring. }
  rewrite !sum_enabled_plus, !sum_enabled_scale.
  destruct (distribute_tick_unfold time_time w self)
    as (Hs0 & _ & Hts & Hpool & Haf & Hrem & _).
  fold t in Hts, Hpool, Haf, Hrem.
  assert (same_settings w (tick_after_first t)) as Hs1.
  { rewrite Haf. eapply same_settings_trans; [exact Hs0|].
    apply first_pass_totals. }
  assert (tick_remainder t
          = tick_pool t
            - tick_timestep t * sum_enabled w hashrate (children (heap w self)))
    as Hr.
  { rewrite Hrem, Hpool, Hts.
    match goal with
    | |- context [first_pass ?ts ?l (?w0, ?r, ?tp)] =>
        destruct (first_pass_totals ts l w0 r tp) as (_ & -> & _);
        rewrite (sum_enabled_same_settings w w0)
          by (try assumption; intros x;
              destruct (Hs0 x) as (_ & _ & ? & _); congruence)
    end.
    rewrite sum_enabled_scale. reflexivity. }
  assert (tick_left t
          = tick_remainder t
            - tick_unit t * sum_enabled w priority (children (heap w self)))
    as Hl.
  { destruct (distribute_tick_second time_time w self)
      as [Hw | (Hu & _ & Hl)]; fold t in Hw || (fold t in Hu, Hl).
    - apply (f_equal snd) in Hw. cbn [snd] in Hw. rewrite Hw.
      match goal with
      | |- context [second_pass ?u ?l (?w1, ?r)] =>
          destruct (second_pass_totals u l w1 r) as (_ & ->)
      end.
      rewrite (sum_enabled_same_settings w) by
        (try assumption; intros x; destruct (Hs1 x) as (_ & ? & _); congruence).
      reflexivity.
    - rewrite Hl, Hu. ring. }
  rewrite Hl, Hr. ring.
Qed.

Lemma distribute_conserves_quota_witness :
  let w := two_leaves in
  let t := distribute_tick (clock_at 1) w 0%nat in
  total (fun c => mhashes_pending (heap (tick_world t) c)
                  - mhashes_pending (heap w c))
        (children (heap w 0%nat))
    = tick_pool t - tick_left t
      + tenth * sum_enabled w mhashes_deferred (children (heap w 0%nat)).
Proof.
  apply (distribute_conserves_quota (clock_at 1) two_leaves 0%nat).
  apply (bool_decide_unpack _). vm_compute. exact I.
Defined.

Lemma distribute_frame time_time w self x :
  let now := time_time (clock_reads w) in
  let w' := _distribute_mhashes time_time w self in
  differ_in_quota_only
    (if Nat.eqb x self then set_last_time now (heap w x) else heap w x)
    (heap w' x) /\
  clock_reads w' = S (clock_reads w).
Proof.
  intros now w'. unfold w', _distribute_mhashes.
  destruct (distribute_tick_unfold time_time w self)
    as (_ & _ & _ & _ & Haf & Hrem & _).
  set (t := distribute_tick time_time w self) in *.
  set (w0 := modify (mkWorld (heap w) (S (clock_reads w))) self
                    (set_last_time now)).
  assert (heap w0 x
          = if Nat.eqb x self then set_last_time now (heap w x) else heap w x)
    as Hw0.
  { unfold w0, modify; cbn. destruct (Nat.eqb_spec x self) as [->|_];
      reflexivity. }
  rewrite <- Hw0.
  assert (differ_in_quota_only (heap w0 x) (heap (tick_after_first t) x) /\
          clock_reads (tick_after_first t) = S (clock_reads w)) as [Hf Hc].
  { rewrite Haf. apply first_pass_frame. }
  destruct (distribute_tick_second time_time w self)
    as [Hw | (_ & Hw & _)]; fold t in Hw; [|rewrite Hw; split; assumption].
  apply (f_equal fst) in Hw. cbn [fst] in Hw. rewrite Hw.
  match goal with
  | |- context [second_pass ?u ?l (?w1, ?r)] =>
      destruct (second_pass_frame u l w1 r x) as [Hs Hc']
  end.
  split; [eapply differ_in_quota_only_trans; eassumption|congruence].
Qed.

Lemma distribute_untouched time_time w self x :
  x ∉ children (heap w self) \/ enabled (heap w x) = false ->
  mhashes_pending (heap (_distribute_mhashes time_time w self) x)
    = mhashes_pending (heap w x) /\
  mhashes_deferred (heap (_distribute_mhashes time_time w self) x)
    = mhashes_deferred (heap w x).
Proof.
  intros Hx. unfold _distribute_mhashes.
  destruct (distribute_tick_unfold time_time w self)
    as (Hs0 & Hq0 & _ & _ & Haf & _).
  set (t := distribute_tick time_time w self) in *.
  assert (same_settings w (tick_after_first t)) as Hs1.
  { rewrite Haf. eapply same_settings_trans; [exact Hs0|].
    apply first_pass_totals. }
  assert (heap (tick_world t) x = heap (tick_after_first t) x) as ->.
  { destruct (distribute_tick_second time_time w self)
      as [Hw | (_ & Hw & _)]; fold t in Hw; [|now rewrite Hw].
    apply (f_equal fst) in Hw. cbn [fst] in Hw. rewrite Hw.
    apply second_pass_untouched. destruct Hx as [Hx|Hx]; [now left|right].
    destruct (Hs1 x) as (-> & _). exact Hx. }
  rewrite Haf, first_pass_untouched.
  - apply Hq0.
  - destruct Hx as [Hx|Hx]; [now left|right].
    destruct (Hs0 x) as (-> & _). exact Hx.
Qed.

(** X11: A tick changes nothing but quota and time: every object keeps all its
    attributes except the pending and the deferred quota, and, for the group
    itself, [last_time], which becomes the time read from the clock (read
    exactly once); the quota of an object that is not a child, or is a
    disabled child, is left alone too. *)
Theorem distribute_touches_quota_only (time_time : nat -> Qc) (w : world)
    (self : oid) :
  let now := time_time (clock_reads w) in
  let w' := _distribute_mhashes time_time w self in
  clock_reads w' = S (clock_reads w) /\
  last_time (heap w' self) = now /\
  (forall x,
     differ_in_quota_only
       (if Nat.eqb x self then set_last_time now (heap w x) else heap w x)
       (heap w' x)) /\
  (forall x,
     x ∉ children (heap w self) \/ enabled (heap w x) = false ->
     mhashes_pending (heap w' x) = mhashes_pending (heap w x) /\
     mhashes_deferred (heap w' x) = mhashes_deferred (heap w x)).
Proof.
  intros now w'.
  split; [apply (distribute_frame time_time w self self)|].
  split; [|split].
  - destruct (distribute_frame time_time w self self) as [H _].
    rewrite Nat.eqb_refl in H.
    apply differ_in_quota_only_last_time in H. exact H.
  - intros x. apply (distribute_frame time_time w self x).
  - intros x Hx. now apply distribute_untouched.
Qed.



(** X13: Consecutive ticks lose no time: the [timestep] of a tick that follows
    another one on the same group is the difference between the two clock
    readings. *)
Theorem distribute_timesteps_telescope (time_time : nat -> Qc) (w : world)
    (self : oid) :
  let w' := _distribute_mhashes time_time w self in
  tick_timestep (distribute_tick time_time w self)
    = time_time (clock_reads w) - last_time (heap w self) /\
  tick_timestep (distribute_tick time_time w' self)
    = time_time (S (clock_reads w)) - time_time (clock_reads w).
Proof.
  intros w'.
  destruct (distribute_tick_unfold time_time w self)
    as (_ & _ & Hts & _).
  destruct (distribute_tick_unfold time_time w' self)
    as (_ & _ & Hts' & _).
  split; [exact Hts|]. rewrite Hts'.
  destruct (distribute_frame time_time w self self) as [Hf Hc].
  fold w' in Hf, Hc. rewrite Nat.eqb_refl in Hf.
  apply differ_in_quota_only_last_time in Hf. rewrite Hf, Hc. reflexivity.
Qed.

Lemma tick_unit_nonneg (t : tick) : 0 <= tick_unit t.
Proof.
  unfold tick_unit.
  destruct (Qcltb 0 (tick_remainder t)) eqn:Hr;
    [destruct (Qcltb 0 (tick_total_priority t)) eqn:Htp|]; cbn [andb];
    try apply Qcle_refl.
  apply Qcltb_lt in Hr, Htp. apply Qclt_le_weak.
  unfold Qcdiv. apply Qcmult_pos_pos; [exact Hr|]. now apply Qcinv_pos.
Qed.

(** X14: A tick never takes pending quota away: when the clock has not gone back
    since the last tick and the enabled children (each listed once) have
    non-negative hash rate, deferred quota and priority, no object ends the
    tick with less pending quota than it had. *)
Theorem distribute_never_takes_quota (time_time : nat -> Qc) (w : world)
    (self : oid) :
  NoDup (children (heap w self)) ->
  last_time (heap w self) <= time_time (clock_reads w) ->
  (forall c, c ∈ children (heap w self) -> enabled (heap w c) = true ->
     0 <= hashrate (heap w c) /\ 0 <= mhashes_deferred (heap w c) /\
     0 <= priority (heap w c)) ->
  forall x,
    mhashes_pending (heap w x)
      <= mhashes_pending (heap (_distribute_mhashes time_time w self) x).
Proof.
  intros Hnd Htime Hpos x.
  destruct (decide (x ∈ children (heap w self))) as [Hin|Hnin].
  - unfold _distribute_mhashes. rewrite distribute_pending by assumption.
    destruct (enabled (heap w x)) eqn:Hen.
    + destruct (Hpos x Hin Hen) as (Hh & Hd & Hp).
      set (t := distribute_tick time_time w self).
      assert (0 <= tick_timestep t) as Hts.
      { unfold t. destruct (distribute_tick_unfold time_time w self)
          as (_ & _ & -> & _).
        apply (Qcplus_le_mono_r _ _ (last_time (heap w self))).
        ring_simplify. exact Htime. }
      rewrite <- (Qcplus_0_r (mhashes_pending (heap w x))) at 1.
      apply Qcplus_le_mono_l.
      repeat apply Qcplus_nonneg_nonneg;
        apply Qcmult_nonneg_nonneg; try assumption.
      * vm_compute. discriminate.
      * apply tick_unit_nonneg.
    + rewrite Qcplus_0_r. apply Qcle_refl.
  - destruct (distribute_untouched time_time w self x) as [-> _];
      [now left|apply Qcle_refl].
Qed.

Lemma distribute_never_takes_quota_witness :
  mhashes_pending (heap two_leaves 1%nat)
    <= mhashes_pending
         (heap (_distribute_mhashes (clock_at 1) two_leaves 0%nat) 1%nat).
Proof.
  refine (distribute_never_takes_quota (clock_at 1) two_leaves 0%nat
            _ _ _ 1%nat).
  - apply (bool_decide_unpack _). vm_compute. exact I.
  - vm_compute. discriminate.
  - intros c Hin _. destruct c as [|[|c]]; repeat split; vm_compute; discriminate.
Defined.

(** ** More on the fetch dispatcher *)

Lemma _get_start_index_spec (w : world) (self : oid) :
  let len := length (children (heap w self)) in
  let next := if (len <=? last_index (heap w self) + 1)%nat then 0%nat
              else (last_index (heap w self) + 1)%nat in
  (_get_start_index w self).2 = next /\
  last_index (heap (_get_start_index w self).1 self) = next /\
  (forall x, structure (heap (_get_start_index w self).1 x)
             = structure (heap w x)).
Proof.
  intros len next. unfold _get_start_index, modify. cbn.
  rewrite !Nat.eqb_refl. cbn. fold len. unfold next.
  destruct (len <=? last_index (heap w self) + 1)%nat; cbn;
    rewrite ?Nat.eqb_refl; cbn;
    (split; [reflexivity|]); (split; [reflexivity|]);
    intros x; destruct (Nat.eqb_spec x self) as [->|?]; reflexivity.
Qed.

Lemma structure_children o o' :
  structure o' = structure o -> children o' = children o.
Proof. unfold structure. intros H. now injection H. Qed.

Lemma start_indices_rotate_aux (k : nat) :
  forall (w : world) (self : oid),
    (last_index (heap w self) < length (children (heap w self)))%nat ->
    start_indices k w self
      = map (fun i => (last_index (heap w self) + i)
                        mod length (children (heap w self)))%nat
            (seq 1 k).
Proof.
  induction k as [|k IH]; intros w self Hlt; [reflexivity|].
  cbn [start_indices seq map].
  pose proof (_get_start_index_spec w self) as (Hidx & Hli & Hst).
  destruct (_get_start_index w self) as [w1 index]. cbn [fst snd] in *.
  set (len := length (children (heap w self))) in *.
  set (li := last_index (heap w self)) in *.
  assert (children (heap w1 self) = children (heap w self)) as Hc
    by (apply structure_children, Hst).
  assert (index = (li + 1) mod len)%nat as Hmod.
  { rewrite Hidx. destruct (Nat.leb_spec len (li + 1)) as [?|?].
    - replace (li + 1)%nat with len by lia.
      symmetry. apply Nat.Div0.mod_same.
    - symmetry. apply Nat.mod_small. lia. }
  assert (index < len)%nat as Hilt
    by (rewrite Hmod; apply Nat.mod_upper_bound; lia).
  f_equal; [exact Hmod|].
  rewrite IH by (rewrite Hc, Hli, <- Hidx; exact Hilt).
  rewrite Hc, Hli, <- Hidx. fold len.
  rewrite <- (seq_shift k 1), map_map.
  apply map_ext. intros i. rewrite Hmod.
  rewrite Nat.Div0.add_mod_idemp_l. f_equal. lia.
Qed.

(** X15: Round robin: as long as the rotation cursor points into the list of
    children, the [i]-th of any number of calls of [_get_start_index] in a
    row hands out the index [(last_index + i) mod len]; so the calls go
    through the children in list order, wrapping around, and serve each
    child once in every [len] consecutive calls. *)
Theorem start_indices_rotate (k : nat) (w : world) (self : oid) :
  (last_index (heap w self) < length (children (heap w self)))%nat ->
  start_indices k w self
    = map (fun i => (last_index (heap w self) + i)
                      mod length (children (heap w self)))%nat
          (seq 1 k).
Proof. apply start_indices_rotate_aux. Qed.

Lemma start_indices_rotate_witness :
  start_indices 5 two_leaves 0%nat = [1; 0; 1; 0; 1]%nat.
Proof.
  apply (start_indices_rotate 5 two_leaves 0%nat).
  cbn. lia.
Defined.

(** X16: After [_reset] the rotation starts at the second child: the [i]-th
    dispatch that follows takes the start index [i mod len], so the child at
    index 0 is served first only by a group with a single child; the clock
    reading of the reset is the time the next tick measures from. *)
Theorem reset_restarts_rotation (time_time : nat -> Qc)
    (base_reset : oid -> world -> world * outcome unit)
    (w : world) (self : oid) (k : nat) :
  match _reset time_time base_reset w self with
  | (w', Returned _) =>
      last_time (heap w' self)
        = time_time (clock_reads (base_reset self w).1) /\
      (children (heap w' self) <> [] ->
       start_indices k w' self
         = map (fun i => i mod length (children (heap w' self)))%nat (seq 1 k))
  | (_, Raised _) => True
  end.
Proof.
  unfold _reset, read_clock.
  destruct (base_reset self w) as [w1 [[]|e]]; [|exact I]. cbn [fst].
  split; [now rewrite heap_modify_eq|].
  intros Hne.
  match goal with
  | |- start_indices k ?w' self = _ =>
      assert (last_index (heap w' self) = 0%nat) as Hli
        by (unfold modify; cbn; now rewrite !Nat.eqb_refl);
      rewrite (start_indices_rotate_aux k w' self)
  end.
  - rewrite Hli. reflexivity.
  - rewrite Hli.
    destruct (children _); [contradiction|cbn; lia].
Qed.

Section DispatcherInvariant.

Variable time_time : nat -> Qc.
Variable fetch : oid -> Z -> Qc -> world -> world * outcome (pyresult * Qc).
Variable self : oid.

(** A property of worlds that every step of the dispatcher keeps. *)
Variable kept : world -> Prop.
Hypothesis kept_fetch : forall c n j w, kept w -> kept (fetch c n j w).1.
Hypothesis kept_pending :
  forall w c q, kept w -> kept (add_pending_mhashes w c q).
Hypothesis kept_tick :
  forall w, kept w -> kept (_distribute_mhashes time_time w self).

Lemma visit_child_post jobs force w worksource found best :
  kept w -> truthy best = false ->
  walk_post fetch kept (visit_child fetch jobs force w worksource found best).
Proof.
  intros Hk Hb. unfold visit_child.
  set (mhashes := if negb (is_group (heap w worksource)) then unit_rate else 0).
  destruct (force || Qcleb mhashes _); [|split; assumption].
  set (w1 := if negb (Qceqb mhashes 0)
             then add_pending_mhashes w worksource (- mhashes) else w).
  assert (kept w1) as Hk1
    by (unfold w1; destruct (negb _); [apply kept_pending|]; exact Hk).
  pose proof (kept_fetch worksource 1%Z jobs w1 Hk1) as Hk2.
  destruct (fetch worksource 1%Z jobs w1) as [w2 [[result gotjobs]|e]] eqn:Ef;
    cbn [fst] in Hk2.
  - destruct (is_not_False result); [|split; assumption].
    set (w3 := if negb (Qceqb mhashes 0)
               then add_pending_mhashes w2 worksource mhashes else w2).
    assert (kept w3) as Hk3
      by (unfold w3; destruct (negb _); [apply kept_pending|]; exact Hk2).
    destruct (truthy result) eqn:Ht; split; cbn; try assumption.
    split; [exact Ht|]. exists worksource, 1%Z, jobs, w1.
    now rewrite Ef.
  - split; [exact Hk2|]. left. exists worksource, 1%Z, jobs, w1.
    now rewrite Ef.
Qed.

Lemma ring_walk_post snapshot startindex jobs force :
  forall fuel w index first found best r,
    kept w -> truthy best = false ->
    ring_walk fetch fuel snapshot startindex jobs force w index first found
              best = Some r ->
    walk_post fetch kept r.
Proof.
  induction fuel as [|fuel IH]; intros w index first found best r Hk Hb Hrun;
    [discriminate|]. cbn [ring_walk] in Hrun.
  destruct (negb (index =? startindex)%nat || first).
  - destruct (snapshot !! index) as [c|].
    + pose proof (visit_child_post jobs force w c found best Hk Hb) as Hv.
      destruct (visit_child fetch jobs force w c found best)
        as [w' found' best'|w' result gotjobs|w' e].
      * destruct Hv as [Hk' Hb']. exact (IH _ _ _ _ _ _ Hk' Hb' Hrun).
      * now injection Hrun as <-.
      * now injection Hrun as <-.
    + injection Hrun as <-. split; [exact Hk|]. now right.
  - injection Hrun as <-. split; assumption.
Qed.

Lemma dispatch_loop_post snapshot startindex jobs :
  forall fuel force w found best iteration rings w' out rings',
    kept w -> truthy best = false ->
    dispatch_loop time_time fetch fuel self snapshot startindex jobs force w
                  found best iteration rings = Some (w', out, rings') ->
    kept w' /\ dispatched fetch out.
Proof.
  induction fuel as [|fuel IH];
    intros force w found best iteration rings w' out rings' Hk Hb Hrun;
    [discriminate|]. cbn [dispatch_loop] in Hrun.
  destruct (negb found).
  - destruct (ring_walk fetch (S fuel) snapshot startindex jobs force w
                        startindex true found best) as [r|] eqn:Er;
      [|discriminate].
    pose proof (ring_walk_post _ _ _ _ _ _ _ _ _ _ _ Hk Hb Er) as [Hkr Hr].
    destruct r as [w1 found1 best1|w1 result gotjobs|w1 e]; cbn in Hkr.
    + assert (kept (if negb found1 then _distribute_mhashes time_time w1 self
                    else w1)) as Hk2
        by (destruct (negb found1); [apply kept_tick|]; exact Hkr).
      destruct (150 <? iteration + 1)%nat.
      * injection Hrun as <- <- _. split; [exact Hk2|]. right.
        split; [exact Hr|reflexivity].
      * exact (IH _ _ _ _ _ _ _ _ _ Hk2 Hr Hrun).
    + injection Hrun as <- <- _. split; [exact Hkr|]. left. exact Hr.
    + injection Hrun as <- <- _. split; [exact Hkr|]. exact Hr.
  - injection Hrun as <- <- _. split; [exact Hk|]. right.
    split; [exact Hb|reflexivity].
Qed.

End DispatcherInvariant.

Lemma same_structure_refl w : same_structure w w.
Proof. intros x. reflexivity. Qed.

Lemma same_structure_trans w1 w2 w3 :
  same_structure w1 w2 -> same_structure w2 w3 -> same_structure w1 w3.
Proof. intros H12 H23 x. now rewrite H23, H12. Qed.

Lemma differ_in_quota_only_structure o o' :
  differ_in_quota_only o o' -> structure o' = structure o.
Proof. intros ->. reflexivity. Qed.

Lemma add_pending_mhashes_structure w c q :
  same_structure w (add_pending_mhashes w c q).
Proof.
  intros x. unfold add_pending_mhashes.
  destruct (Nat.eq_dec x c) as [->|Hne].
  - now rewrite heap_modify_eq.
  - now rewrite heap_modify_ne.
Qed.

Lemma distribute_structure time_time w self :
  same_structure w (_distribute_mhashes time_time w self).
Proof.
  intros x. destruct (distribute_frame time_time w self x) as [H _].
  apply differ_in_quota_only_structure in H. rewrite H.
  now destruct (x =? self)%nat.
Qed.

Lemma _start_fetcher_post time_time fetch fuel self jobs force w w' out rings :
  keeps_structure fetch ->
  _start_fetcher time_time fetch fuel self jobs force w
    = Some (w', out, rings) ->
  same_structure w w' /\ dispatched fetch out.
Proof.
  intros Hfetch Hrun. unfold _start_fetcher in Hrun.
  pose proof (_get_start_index_spec w self) as (_ & _ & Hst).
  destruct (_get_start_index w self) as [w1 startindex]. cbn [fst] in Hst.
  apply (dispatch_loop_post time_time fetch self (same_structure w))
    in Hrun; try assumption; try reflexivity.
  - intros c n j x Hx. eapply same_structure_trans; [exact Hx|].
    intros y. apply Hfetch.
  - intros x c q Hx. eapply same_structure_trans; [exact Hx|].
    apply add_pending_mhashes_structure.
  - intros x Hx. eapply same_structure_trans; [exact Hx|].
    apply distribute_structure.
Qed.

Lemma _start_fetcher_runs time_time fetch fuel self jobs force w :
  children (heap w self) <> [] ->
  (length (children (heap w self)) + 103 <= fuel)%nat ->
  exists w' out rings,
    _start_fetcher time_time fetch fuel self jobs force w
      = Some (w', out, rings) /\
    returned_or_child_raised fetch out.
Proof.
  intros Hne Hfuel. unfold _start_fetcher.
  pose proof (_get_start_index_lt w self Hne) as Hlt.
  destruct (_get_start_index w self) as [w1 startindex]. cbn [snd] in Hlt.
  destruct (dispatch_loop_bounded time_time fetch self (children (heap w self))
              startindex jobs force 101 fuel 0%nat w1 RFalse)
    as (w' & out & rings & Hrun & _ & _ & Ho); [lia|lia|exact Hlt|].
  change (if (100 <? 0)%nat then true else force) with force in Hrun.
  now exists w', out, rings.
Qed.

(** X17: The dispatcher changes nothing but quota counters, the rotation cursor
    and the tick time: when the children's [start_fetchers] leave the
    structure of the objects alone (who is a group, the parent links, the
    lists of children, the started flags and the settings), so does
    [_start_fetcher]; and what it hands back is a truthy result of a child
    with the jobs that child reported, or a falsy result with 0 jobs. *)
Theorem start_fetcher_keeps_structure (time_time : nat -> Qc)
    (fetch : oid -> Z -> Qc -> world -> world * outcome (pyresult * Qc))
    (fuel : nat) (self : oid) (jobs : Qc) (force : bool) (w : world) :
  keeps_structure fetch ->
  match _start_fetcher time_time fetch fuel self jobs force w with
  | Some (w', out, _) => same_structure w w' /\ dispatched fetch out
  | None => True
  end.
Proof.
  intros Hfetch.
  destruct (_start_fetcher _ _ _ _ _ _ _) as [[[w' out] rings]|] eqn:Hrun;
    [|exact I].
  exact (_start_fetcher_post _ _ _ _ _ _ _ _ _ _ Hfetch Hrun).
Qed.

Lemma start_fetcher_keeps_structure_witness :
  match _start_fetcher (clock_at 1) fetch_nothing 200 0%nat 1 false
                       (one_leaf false 0) with
  | Some (w', out, _) =>
      same_structure (one_leaf false 0) w' /\ dispatched fetch_nothing out
  | None => True
  end.
Proof.
  apply (start_fetcher_keeps_structure (clock_at 1) fetch_nothing 200 0%nat
           1 false (one_leaf false 0)).
  intros c n j x y. reflexivity.
Defined.

(** X18: With [force] set the dispatcher makes exactly one walk around the ring:
    the first child it visits counts as found, whatever its quota. *)
Theorem start_fetcher_forced_walks_once (time_time : nat -> Qc)
    (fetch : oid -> Z -> Qc -> world -> world * outcome (pyresult * Qc))
    (fuel : nat) (self : oid) (jobs : Qc) (w : world) :
  children (heap w self) <> [] ->
  (length (children (heap w self)) + 2 <= fuel)%nat ->
  exists w' out,
    _start_fetcher time_time fetch fuel self jobs true w
      = Some (w', out, [true]) /\
    returned_or_child_raised fetch out.
Proof.
  intros Hne Hfuel. unfold _start_fetcher.
  pose proof (_get_start_index_lt w self Hne) as Hlt.
  destruct (_get_start_index w self) as [w1 startindex]. cbn [snd] in Hlt.
  destruct fuel as [|fuel]; [lia|]. cbn [dispatch_loop negb].
  destruct (ring_walk_ok fetch (children (heap w self)) startindex jobs true
              (S fuel) w1 false RFalse) as (r & -> & Hok); [exact Hlt|lia|].
  destruct r as [w' found' best'|w' result gotjobs|w' e].
  - rewrite (Hok eq_refl). cbn [negb].
    destruct fuel as [|fuel]; [lia|]. cbn.
    eexists _, _. split; [reflexivity|exact I].
  - eexists _, _. split; [reflexivity|exact I].
  - eexists _, _. split; [reflexivity|exact Hok].
Qed.

Lemma start_fetcher_forced_walks_once_witness :
  exists w' out,
    _start_fetcher (clock_at 1) fetch_nothing 3 0%nat 1 true (one_leaf false 0)
      = Some (w', out, [true]) /\
    returned_or_child_raised fetch_nothing out.
Proof.
  apply (start_fetcher_forced_walks_once (clock_at 1) fetch_nothing 3 0%nat 1
           (one_leaf false 0)).
  - discriminate.
  - cbn. lia.
Defined.

Section StartFetchers.

Variable time_time : nat -> Qc.
Variable fetch : oid -> Z -> Qc -> world -> world * outcome (pyresult * Qc).
Variable self : oid.
Variable count : Z.
Variable jobs : Qc.
Variable w0 : world.

Hypothesis fetch_structure : keeps_structure fetch.
Hypothesis fetch_nonnegative : nonnegative_results fetch.
Hypothesis some_children : children (heap w0 self) <> [].

(** One call of the dispatcher from inside the loop of [start_fetchers]. *)
Lemma dispatch_step fuel force w :
  same_structure w0 w ->
  (length (children (heap w0 self)) + 103 <= fuel)%nat ->
  exists w' out rings,
    _start_fetcher time_time fetch fuel self jobs force w
      = Some (w', out, rings) /\
    same_structure w0 w' /\
    match out with
    | Returned (r, g) =>
        (exists n, r = RInt n /\ (0 < n)%Z) \/ (truthy r = false /\ g = 0)
    | Raised e => raised_by fetch e
    end.
Proof.
  intros Hs Hfuel.
  assert (children (heap w self) = children (heap w0 self)) as Hc
    by (apply structure_children, Hs).
  destruct (_start_fetcher_runs time_time fetch fuel self jobs force w)
    as (w' & out & rings & Hrun & Ho);
    [now rewrite Hc|now rewrite Hc|].
  destruct (_start_fetcher_post _ _ _ _ _ _ _ _ _ _ fetch_structure Hrun)
    as (Hs' & Hd).
  exists w', out, rings. split; [exact Hrun|].
  split; [eapply same_structure_trans; eassumption|].
  destruct out as [[r g]|e]; [|exact Ho].
  destruct Hd as [(Ht & c & n & j & x & Hf)|Hd]; [|now right].
  left. destruct r as [|m]; [discriminate|].
  exists m. split; [reflexivity|].
  apply fetch_nonnegative in Hf. cbn in Ht.
  destruct (Z.eqb_spec m 0); [discriminate|lia].
Qed.

Lemma start_fetchers_loop_runs (n : nat) :
  forall fuel w started result totaljobs,
    same_structure w0 w ->
    (Z.to_nat (count - started) <= n)%nat ->
    (n + length (children (heap w0 self)) + 104 <= fuel)%nat ->
    (0 <= started)%Z ->
    (started = 0%Z -> truthy result = false) ->
    exists w' out,
      start_fetchers_loop time_time fetch fuel self count jobs w started
                          result totaljobs = Some (w', out) /\
      same_structure w0 w' /\ reported fetch out.
Proof.
  induction n as [|n IH];
    intros fuel w started result totaljobs Hs Hn Hfuel Hst Hres;
    (destruct fuel as [|fuel]; [lia|]); cbn [start_fetchers_loop].
  - (* the loop is over *)
    destruct (Z.ltb_spec started count) as [?|_]; [lia|]. cbn [andb].
    eexists _, _. split; [reflexivity|]. split; [exact Hs|].
    destruct (Z.eqb_spec started 0) as [E|E]; cbn [negb reported].
    + right. split; [now apply Hres|reflexivity].
    + left. exists started. split; [reflexivity|lia].
  - destruct ((started <? count)%Z && Qcltb totaljobs jobs) eqn:Hcond.
    2:{ eexists _, _. split; [reflexivity|]. split; [exact Hs|].
        destruct (Z.eqb_spec started 0) as [E|E]; cbn [negb reported].
        - right. split; [now apply Hres|reflexivity].
        - left. exists started. split; [reflexivity|lia]. }
    apply andb_true_iff in Hcond as [Hlt _]. apply Z.ltb_lt in Hlt.
    assert (forall w1 m g,
              same_structure w0 w1 -> (0 < m)%Z ->
              exists w' out,
                start_fetchers_loop time_time fetch fuel self count jobs w1
                  (started + m) (RInt m) (totaljobs + g) = Some (w', out) /\
                same_structure w0 w' /\ reported fetch out) as Hnext.
    { intros w1 m g Hs1 Hm. apply IH; try assumption; lia. }
    destruct (dispatch_step (S fuel) false w Hs ltac:(lia))
      as (w1 & out1 & rings1 & -> & Hs1 & Ho1).
    destruct out1 as [[r1 g1]|e1];
      [|eexists _, _; split; [reflexivity|split; assumption]].
    destruct (truthy r1) eqn:Ht1; cbn [negb].
    + rewrite Ht1. cbn [negb].
      destruct Ho1 as [(m & -> & Hm)|[Hf _]]; [|congruence].
      now apply Hnext.
    + destruct (dispatch_step (S fuel) true w1 Hs1 ltac:(lia))
        as (w2 & out2 & rings2 & -> & Hs2 & Ho2).
      destruct out2 as [[r2 g2]|e2];
        [|eexists _, _; split; [reflexivity|split; assumption]].
      destruct (truthy r2) eqn:Ht2; cbn [negb].
      * destruct Ho2 as [(m & -> & Hm)|[Hf _]]; [|congruence].
        now apply Hnext.
      * eexists _, _. split; [reflexivity|]. split; [exact Hs2|].
        destruct (Z.eqb_spec started 0) as [E|E]; cbn [negb reported].
        -- right. split; [exact Ht2|reflexivity].
        -- left. exists started. split; [reflexivity|lia].
Qed.

End StartFetchers.

(** X19: [start_fetchers] of a group terminates when the children never report a
    negative number of fetchers (and leave the structure of the objects
    alone): it returns after at most [count] rounds, having changed nothing
    but quota counters, the rotation cursor and the tick time, with either a
    positive number of started fetchers or a falsy result and 0 jobs, unless
    a child's [start_fetchers] raised. *)
Theorem start_fetchers_returns (time_time : nat -> Qc)
    (fetch : oid -> Z -> Qc -> world -> world * outcome (pyresult * Qc))
    (fuel : nat) (self : oid) (count : Z) (jobs : Qc) (w : world) :
  keeps_structure fetch ->
  nonnegative_results fetch ->
  (Z.to_nat count + length (children (heap w self)) + 104 <= fuel)%nat ->
  exists w' out,
    start_fetchers time_time fetch fuel self count jobs w = Some (w', out) /\
    same_structure w w' /\ reported fetch out.
Proof.
  intros Hst Hnn Hfuel. unfold start_fetchers.
  destruct (negb (started (heap w self)) || negb (enabled (heap w self))
            || match children (heap w self) with [] => true | _ => false end
            || (count =? 0)%Z) eqn:Hguard.
  - eexists _, _. split; [reflexivity|].
    split; [apply same_structure_refl|]. right. split; reflexivity.
  - assert (children (heap w self) <> []) as Hne.
    { intros E. rewrite E in Hguard. cbn in Hguard.
      rewrite orb_true_r in Hguard. discriminate. }
    apply (start_fetchers_loop_runs time_time fetch self count jobs w Hst Hnn
             Hne (Z.to_nat count)); try lia.
    + apply same_structure_refl.
    + reflexivity.
Qed.

Lemma start_fetchers_returns_witness :
  exists w' out,
    start_fetchers (clock_at 1) fetch_nothing 107 0%nat 2%Z 1 (one_leaf true 0)
      = Some (w', out) /\
    same_structure (one_leaf true 0) w' /\ reported fetch_nothing out.
Proof.
  apply (start_fetchers_returns (clock_at 1) fetch_nothing 107 0%nat 2%Z 1
           (one_leaf true 0)).
  - intros c n j x y. reflexivity.
  - intros c n j x r g H. discriminate H.
  - cbn. lia.
Defined.

(** ** The aggregator *)



